(** * AsyncProductCrawler (crawler.py): a shallow embedding and its properties

    The development follows the layout of [crawler.py]:
    - [Str]: the two string tests the crawler relies on, [re.search] with the
      literal product patterns and Python's [sub in s];
    - [Crawler]: [fetch_url], [is_product_url] and the breadth-first loop of
      [crawl_domain], one loop iteration per [loop_body];
    - [Orchestrator]: [crawl_domains], the semaphore-gated domain tasks as a
      step relation.

    The network ([session.get]) and the HTML link extraction ([parse_links])
    are collaborators of the crawler; they are section variables, so every
    statement holds for every behaviour of both. *)

From Stdlib Require Import ZArith Ascii String List Lia Sorted.
From stdpp Require Import base tactics option list relations gmap strings.

Set Warnings "-clear-no-such-hyp".

Local Open Scope string_scope.
Local Open Scope list_scope.
Local Open Scope Z_scope.

(* ===================================================================== *)
(** ** Strings *)
(* ===================================================================== *)

Module Str.

(** [sub] matches at the very start of [s]. *)
Fixpoint starts_with (sub s : string) : bool :=
  match sub, s with
  | EmptyString, _ => true
  | String a sub', String b s' => if Ascii.eqb a b then starts_with sub' s' else false
  | String _ _, EmptyString => false
  end.

(** Python's [sub in s] on [str]: [sub] occurs at some offset of [s]. *)
Fixpoint str_in (sub s : string) : bool :=
  if starts_with sub s then true
  else match s with
       | EmptyString => false
       | String _ s' => str_in sub s'
       end.

(** The characters with a special meaning in a Python regular expression. *)
Definition re_special : string := ".^$*+?{}[]\|()".

Fixpoint mem_char (c : ascii) (s : string) : bool :=
  match s with
  | EmptyString => false
  | String d s' => if Ascii.eqb c d then true else mem_char c s'
  end.

Fixpoint is_literal (pattern : string) : bool :=
  match pattern with
  | EmptyString => true
  | String c p' => negb (mem_char c re_special) && is_literal p'
  end.

(** [re.search(pattern, s)] as a truth value, for a pattern made of ordinary
    characters only: the pattern is tried at offsets 0, 1, 2, ... of [s] and
    the search succeeds at the first offset where it matches. *)
Fixpoint re_search (pattern s : string) : bool :=
  if starts_with pattern s then true
  else match s with
       | EmptyString => false
       | String _ s' => re_search pattern s'
       end.

(** *** URL components

    [crawler.py] never takes a URL apart in [is_product_url]. The functions
    below follow [urllib.parse.urlparse] (CPython 3.12: [urlsplit], then
    [_splitparams]) to name the path component of a URL, so that a statement
    about "the path of the URL" can be written down. They cover the URLs
    made of ASCII characters without square brackets; on the others
    ([urlsplit] validates a bracketed host and normalises a non-ASCII one,
    and can raise) [url_path] gives [None]. *)

Definition is_alpha (c : ascii) : bool :=
  let n := nat_of_ascii c in
  ((65 <=? n)%nat && (n <=? 90)%nat) || ((97 <=? n)%nat && (n <=? 122)%nat).

Definition is_scheme_char (c : ascii) : bool :=
  let n := nat_of_ascii c in
  is_alpha c || ((48 <=? n)%nat && (n <=? 57)%nat)
  || mem_char c "+-.".

(** [s] cut before the first character that satisfies [stop]. *)
Fixpoint take_until (stop : ascii -> bool) (s : string) : string :=
  match s with
  | EmptyString => EmptyString
  | String c s' => if stop c then EmptyString else String c (take_until stop s')
  end.

(** [s] from the first character that satisfies [stop] on. *)
Fixpoint drop_until (stop : ascii -> bool) (s : string) : string :=
  match s with
  | EmptyString => EmptyString
  | String c s' => if stop c then s else drop_until stop s'
  end.

Fixpoint all_chars (p : ascii -> bool) (s : string) : bool :=
  match s with
  | EmptyString => true
  | String c s' => p c && all_chars p s'
  end.

Fixpoint keep_chars (p : ascii -> bool) (s : string) : string :=
  match s with
  | EmptyString => EmptyString
  | String c s' => if p c then String c (keep_chars p s') else keep_chars p s'
  end.

Definition is_colon (c : ascii) : bool := Ascii.eqb c ":".

(** The URLs [url_path] covers: ASCII, no [[] and no []]. *)
Definition is_covered_char (c : ascii) : bool :=
  (nat_of_ascii c <? 128)%nat && negb (Ascii.eqb c "[") && negb (Ascii.eqb c "]").

(** [url.lstrip(_WHATWG_C0_CONTROL_OR_SPACE)]: the leading characters with a
    code up to 32 are dropped. *)
Definition lstrip_c0 (url : string) : string :=
  drop_until (fun c => (32 <? nat_of_ascii c)%nat) url.

(** Tab, line feed and carriage return are removed wherever they are
    ([_UNSAFE_URL_BYTES_TO_REMOVE]). *)
Definition is_unsafe (c : ascii) : bool :=
  let n := nat_of_ascii c in
  (n =? 9)%nat || (n =? 10)%nat || (n =? 13)%nat.

Definition remove_unsafe (url : string) : string :=
  keep_chars (fun c => negb (is_unsafe c)) url.

Definition to_lower (c : ascii) : ascii :=
  let n := nat_of_ascii c in
  if (65 <=? n)%nat && (n <=? 90)%nat then ascii_of_nat (n + 32) else c.

Fixpoint lower (s : string) : string :=
  match s with
  | EmptyString => EmptyString
  | String c s' => String (to_lower c) (lower s')
  end.

(** The scheme, in lower case, and what follows its colon; the empty scheme
    and the whole string when there is no scheme. *)
Definition split_scheme (url : string) : string * string :=
  match url with
  | EmptyString => (EmptyString, url)
  | String c _ =>
      let before := take_until is_colon url in
      match drop_until is_colon url with
      | String _ rest =>
          if is_alpha c && all_chars is_scheme_char before
          then (lower before, rest) else (EmptyString, url)
      | EmptyString => (EmptyString, url)
      end
  end.

(** [url] without its [//netloc] part, when it has one. *)
Definition strip_netloc (url : string) : string :=
  match url with
  | String "/" (String "/" rest) => drop_until (fun c => mem_char c "/?#") rest
  | _ => url
  end.

(** The schemes for which [urlparse] splits [;params] off the path. *)
Definition uses_params : list string :=
  [""; "ftp"; "hdl"; "prospero"; "http"; "imap"; "https"; "shttp"; "rtsp";
   "rtspu"; "sip"; "sips"; "mms"; "sftp"; "tel"].

Definition is_semicolon (c : ascii) : bool := Ascii.eqb c ";".

(** [_splitparams]: the path is cut at the first [;] of its last segment
    (of the whole path when it has no [/]). *)
Fixpoint cut_params (path : string) : string :=
  match path with
  | EmptyString => EmptyString
  | String c rest =>
      if mem_char "/" rest then String c (cut_params rest)
      else if Ascii.eqb c "/" then String c (take_until is_semicolon rest)
      else take_until is_semicolon path
  end.

(** [urlparse(url).path]. *)
Definition url_path (url : string) : option string :=
  if all_chars is_covered_char url then
    let '(scheme, rest) := split_scheme (remove_unsafe (lstrip_c0 url)) in
    let path :=
      take_until (fun c => Ascii.eqb c "?")
        (take_until (fun c => Ascii.eqb c "#") (strip_netloc rest)) in
    Some (if existsb (String.eqb scheme) uses_params then cut_params path else path)
  else None.

End Str.

(* ===================================================================== *)
(** ** The crawler: [class AsyncProductCrawler] *)
(* ===================================================================== *)

Module Crawler.

(** [PRODUCT_PATTERNS], the class attribute. *)
Definition PRODUCT_PATTERNS : list string :=
  ["/product/"; "/item/"; "/p/"; "/catalogue/"].

(** The three attributes set by [__init__]. Python integers are unbounded,
    so they are [Z]; nothing in [__init__] checks their sign. *)
Record config := Config {
  max_depth : Z;
  max_pages : Z;
  max_concurrent_requests : Z
}.

(** [is_product_url]: [any(re.search(pattern, url) for pattern in
    self.PRODUCT_PATTERNS)]. The search runs on the string it is given. *)
Definition is_product_url (url : string) : bool :=
  existsb (fun pattern => Str.re_search pattern url) PRODUCT_PATTERNS.

(** The classifier as the specification words it: the patterns are searched
    in the path component of the URL only. [crawler.py] has no such
    function; it is here to be compared with [is_product_url]. [None] where
    [Str.url_path] gives no path. *)
Definition is_product_path (url : string) : option bool :=
  match Str.url_path url with
  | Some path => Some (existsb (fun pattern => Str.re_search pattern path) PRODUCT_PATTERNS)
  | None => None
  end.

(** Exceptions of class [Exception] that the collaborators can raise.
    Cancellation and interrupts, which are not of class [Exception] and
    which [fetch_url] would not catch, are left out. *)
Inductive exn :=
| TimeoutError                (* the 10 second timeout of [session.get] *)
| ClientError (msg : string)  (* aiohttp transport errors *)
| OtherError (msg : string).  (* any other [Exception] *)

Inductive result (A : Type) :=
| Ok (a : A)
| Raise (e : exn).
Arguments Ok {A} a.
Arguments Raise {A} e.

(** What [session.get] hands to the [async with] block: the status code and
    what [await response.text()] would give. *)
Record response := Response {
  status : Z;
  text : result string
}.

(** One entry of the crawl log. The log is not in [crawler.py]: it records,
    in order, what the loop of [crawl_domain] did, so that statements about
    "every fetch" or "every dequeued task" have something to quantify over.
    [vis] is always the value of [visited] at the moment of the entry. *)
Inductive event :=
| EvGet (url : string) (depth : Z) (vis : gset string)
    (* line 86: [queue.get()] returned [(url, depth)] *)
| EvFetch (url : string) (depth : Z) (vis0 vis : gset string)
    (* line 96: [fetch_url] is called on [url]; [vis0] is [visited] as it
       was when the task was dequeued in the same iteration *)
| EvPage (page html : string) (links : list string)
    (* line 101: [parse_links(html, page)] returned [links], where [html] is
       what [fetch_url] returned for [page] *)
| EvLink (page link : string) (vis : gset string)
    (* line 104: the [for] loop over the links of [page] reaches [link] *)
| EvAdd (link : string)
    (* line 108: [product_urls.add(link)] *)
| EvPut (link : string) (depth : Z).
    (* line 110: [queue.put((link, depth))] *)

(** The local variables of [crawl_domain], and the log. *)
Record cstate := CState {
  queue : list (string * Z);      (* asyncio.Queue, FIFO, head first *)
  visited : gset string;
  product_urls : gset string;
  log : list event
}.

Definition note (e : event) (st : cstate) : cstate :=
  CState (queue st) (visited st) (product_urls st) (log st ++ [e]).

Definition state_of_start (domain : string) : cstate :=
  CState [("https://" +:+ domain, 0)] ∅ ∅ [].

Section Crawl.

(** The network: [World] is whatever the answers of the servers depend on
    (time, server state, the requests made so far). *)
Variable World : Type.
Variable session_get : World -> string -> World * result response.

(** [parse_links html base_url]: the links of the page, in the order in
    which the [for] loop iterates over the returned set (BeautifulSoup and
    [urljoin] can raise on malformed input; nothing in [crawler.py]
    catches that). *)
Variable parse_links : string -> string -> result (list string).

Variable cfg : config.

(** The [try] block of [fetch_url]. [Ok None] is the block running to its
    end without reaching [return]. *)
Definition fetch_try (r : result response) : result (option string) :=
  match r with
  | Raise e => Raise e
  | Ok resp =>
      if status resp =? 200 then
        match text resp with
        | Ok body => Ok (Some body)
        | Raise e => Raise e
        end
      else Ok None
  end.

(** [fetch_url]: [except Exception] swallows the exception (after
    printing it), and the function ends in [return None]. *)
Definition fetch_url (w : World) (url : string) : World * option string :=
  let '(w', r) := session_get w url in
  (w', match fetch_try r with
       | Ok html => html
       | Raise _ => None
       end).

(** One round of the [for link in links] loop (lines 104-110), in the
    iteration that fetched [page] at depth [depth]. *)
Definition process_link (domain page : string) (depth : Z)
    (st : cstate) (link : string) : cstate :=
  let st := note (EvLink page link (visited st)) st in
  if bool_decide (link ∈ visited st) then st
  else if is_product_url link then
    note (EvAdd link)
      (CState (queue st) (visited st) ({[link]} ∪ product_urls st) (log st))
  else if Str.str_in domain link then
    note (EvPut link (depth + 1))
      (CState (queue st ++ [(link, depth + 1)]) (visited st) (product_urls st) (log st))
  else st.

(** How one iteration of the [while] loop ends. *)
Inductive outcome :=
| Normal (st : cstate)
| Raised (e : exn) (st : cstate).

Definition state_of (o : outcome) : cstate :=
  match o with Normal st | Raised _ st => st end.

(** The loop condition of line 85. *)
Definition loop_guard (st : cstate) : bool :=
  negb (bool_decide (queue st = [])) &&
  (Z.of_nat (size (visited st)) <? max_pages cfg).

(** The loop body, lines 86-110. *)
Definition loop_body (domain : string) (st : cstate) (w : World) : outcome * World :=
  match queue st with
  | [] => (Normal st, w)  (* not reached: the guard saw a non-empty queue *)
  | (current_url, depth) :: rest =>
      let st1 := note (EvGet current_url depth (visited st))
                   (CState rest (visited st) (product_urls st) (log st)) in
      if (depth >? max_depth cfg) || bool_decide (current_url ∈ visited st) then
        (Normal st1, w)
      else
        let st2 := note (EvFetch current_url depth (visited st) ({[current_url]} ∪ visited st))
                     (CState (queue st1) ({[current_url]} ∪ visited st1)
                             (product_urls st1) (log st1)) in
        let '(w', html) := fetch_url w current_url in
        match html with
        | None => (Normal st2, w')
        | Some html =>
            match parse_links html current_url with
            | Raise e => (Raised e st2, w')
            | Ok links =>
                let st3 := note (EvPage current_url html links) st2 in
                (Normal (fold_left (process_link domain current_url depth) links st3), w')
            end
        end
  end.

(** The [while] loop. [None]: the fuel ran out before the loop ended. *)
Fixpoint while_loop (fuel : nat) (domain : string) (st : cstate) (w : World)
    : option (outcome * World) :=
  match fuel with
  | O => None
  | S fuel' =>
      if loop_guard st then
        match loop_body domain st w with
        | (Normal st', w') => while_loop fuel' domain st' w'
        | (Raised e st', w') => Some (Raised e st', w')
        end
      else Some (Normal st, w)
  end.

(** [crawl_domain]: the loop from the start state. On [Normal st] the
    method returns [list(product_urls st)]. *)
Definition crawl_domain (fuel : nat) (domain : string) (w : World)
    : option (outcome * World) :=
  while_loop fuel domain (state_of_start domain) w.

(** One iteration as a relation, and the points a traversal goes through. *)
Inductive iter (domain : string) : outcome * World -> outcome * World -> Prop :=
| iter_intro st w o w' :
    loop_guard st = true ->
    loop_body domain st w = (o, w') ->
    iter domain (Normal st, w) (o, w').

Definition reaches (domain : string) (w0 : World) (o : outcome) (w : World) : Prop :=
  rtc (iter domain) (Normal (state_of_start domain), w0) (o, w).

End Crawl.

(** The URLs on which [fetch_url] was called, oldest first. *)
Fixpoint fetched (l : list event) : list string :=
  match l with
  | [] => []
  | EvFetch url _ _ _ :: l' => url :: fetched l'
  | _ :: l' => fetched l'
  end.

(** The value of [visited] an entry of the log was made with. *)
Definition ev_visited (e : event) : option (gset string) :=
  match e with
  | EvGet _ _ vis | EvFetch _ _ _ vis | EvLink _ _ vis => Some vis
  | EvPage _ _ _ | EvAdd _ | EvPut _ _ => None
  end.

(** *** Predicates on states and logs

    The notions the properties below are stated with. *)

(** The states an iteration goes through: after the dequeue, and after the
    URL is marked visited and handed to [fetch_url]. *)
Definition after_get (st : cstate) (url : string) (depth : Z) (rest : list (string * Z)) :=
  CState rest (visited st) (product_urls st) (log st ++ [EvGet url depth (visited st)]).

Definition after_visit (st : cstate) (url : string) (depth : Z) (rest : list (string * Z)) :=
  CState rest ({[url]} ∪ visited st) (product_urls st)
    ((log st ++ [EvGet url depth (visited st)])
       ++ [EvFetch url depth (visited st) ({[url]} ∪ visited st)]).

Definition is_fetch (e : event) : bool :=
  match e with EvFetch _ _ _ _ => true | _ => false end.

Definition is_link_event (e : event) : bool :=
  match e with EvLink _ _ _ | EvAdd _ | EvPut _ _ => true | _ => false end.

Definition is_page_event (e : event) : bool :=
  match e with EvPage _ _ _ | EvLink _ _ _ => true | _ => false end.

(** Every value of [visited] written to the log is part of the current
    one. *)
Definition snapshots_below (st : cstate) : Prop :=
  forall e v, e ∈ log st -> ev_visited e = Some v -> v ⊆ visited st.

(** The fetched URLs are exactly the visited ones, each fetched once. *)
Definition visited_inv (st : cstate) : Prop :=
  NoDup (fetched (log st)) /\
  visited st = list_to_set (fetched (log st)) /\
  snapshots_below st.

(** The [for] loop has come to every link of every page in the log. *)
Definition links_done (l : list event) : Prop :=
  forall page html links u,
    EvPage page html links ∈ l -> u ∈ links -> exists vis, EvLink page u vis ∈ l.

(** [session.get] failed in the sense of the specification: it raised (a
    timeout, a transport error), or it answered with a status outside
    200..299. *)
Definition fetch_failure (r : result response) : Prop :=
  match r with
  | Raise _ => True
  | Ok resp => status resp < 200 \/ 300 <= status resp
  end.

Section Predicates.

Variable World : Type.
Variable session_get : World -> string -> World * result response.
Variable parse_links : string -> string -> result (list string).
Variable cfg : config.
Variable domain : string.

(** Every fetch in the log comes right after the dequeue of its task, and
    the task had passed the checks of line 89. *)
Definition fetches_ok (l : list event) : Prop :=
  forall l1 l2 u d v0 v,
    l = l1 ++ EvFetch u d v0 v :: l2 ->
    (exists l1', l1 = l1' ++ [EvGet u d v0]) /\
    d <= max_depth cfg /\ (u ∉ v0) /\ v = {[u]} ∪ v0.

(** What is in [product_urls] and in the queue, in terms of the log. *)
Definition links_inv (st : cstate) : Prop :=
  (forall u, u ∈ product_urls st <-> EvAdd u ∈ log st) /\
  (forall u, EvAdd u ∈ log st <->
             exists page vis, EvLink page u vis ∈ log st /\ (u ∉ vis) /\
                              is_product_url u = true) /\
  (forall u d, EvPut u d ∈ log st ->
               is_product_url u = false /\ Str.str_in domain u = true) /\
  (forall u d, (u, d) ∈ queue st ->
               (u, d) = ("https://" +:+ domain, 0) \/ EvPut u d ∈ log st).

(** Every link in the log belongs to a page in the log, and every page in
    the log was fetched and parsed. *)
Definition pages_inv (l : list event) : Prop :=
  (forall page u vis, EvLink page u vis ∈ l ->
     exists html links, EvPage page html links ∈ l /\ u ∈ links) /\
  (forall page html links, EvPage page html links ∈ l ->
     parse_links html page = Ok links /\ page ∈ fetched l /\
     exists w w', fetch_url World session_get w page = (w', Some html)).

(** What is left of the page budget. *)
Definition budget_left (st : cstate) : nat :=
  Z.to_nat (max_pages cfg - Z.of_nat (size (visited st))).

(** An iteration of the crawl that started in world [w0] dequeued [page],
    passed the checks of line 89, got [html] from [fetch_url] (so the fetch
    succeeded) and [links] from [parse_links]; [vis] is [visited] as it is
    during the [for] loop of that iteration. *)
Definition fetched_page (w0 : World) (page html : string) (links : list string)
    (vis : gset string) : Prop :=
  exists st w w' depth rest,
    reaches World session_get parse_links cfg domain w0 (Normal st) w /\
    loop_guard cfg st = true /\
    queue st = (page, depth) :: rest /\
    depth <= max_depth cfg /\
    (page ∉ visited st) /\
    fetch_url World session_get w page = (w', Some html) /\
    parse_links html page = Ok links /\
    vis = {[page]} ∪ visited st.

(** Every page and every link in the log comes from such an iteration. *)
Definition pages_fetched (w0 : World) (l : list event) : Prop :=
  (forall page html links, EvPage page html links ∈ l ->
     exists vis, fetched_page w0 page html links vis) /\
  (forall page u vis, EvLink page u vis ∈ l ->
     exists html links,
       EvPage page html links ∈ l /\ fetched_page w0 page html links vis /\
       u ∈ links).


End Predicates.

(** *** Depths and origins of tasks *)

(** The depths of the tasks dequeued at line 86, oldest first. *)
Fixpoint got_depths (l : list event) : list Z :=
  match l with
  | [] => []
  | EvGet _ d _ :: l' => d :: got_depths l'
  | _ :: l' => got_depths l'
  end.

(** The depths of the tasks handed to [fetch_url], oldest first. *)
Fixpoint fetch_depths (l : list event) : list Z :=
  match l with
  | [] => []
  | EvFetch _ d _ _ :: l' => d :: fetch_depths l'
  | _ :: l' => fetch_depths l'
  end.

(** The queue is in breadth-first order: sorted by depth, within two
    adjacent levels, and behind everything dequeued or fetched so far. *)
Definition bfs_inv (st : cstate) : Prop :=
  StronglySorted Z.le (map snd (queue st)) /\
  (forall x y, x ∈ map snd (queue st) -> y ∈ map snd (queue st) -> x <= y + 1) /\
  StronglySorted Z.le (got_depths (log st)) /\
  (forall y x, y ∈ got_depths (log st) -> x ∈ map snd (queue st) -> y <= x) /\
  StronglySorted Z.le (fetch_depths (log st)) /\
  (forall y x, y ∈ fetch_depths (log st) -> x ∈ map snd (queue st) -> y <= x).

(** The state while the task of depth [d] is being worked on: the queue
    holds depths [d] and [d + 1] only, in order, and nothing dequeued or
    fetched so far was deeper than [d]. *)
Definition bfs_level (d : Z) (st : cstate) : Prop :=
  StronglySorted Z.le (map snd (queue st)) /\
  (forall x, x ∈ map snd (queue st) -> d <= x <= d + 1) /\
  StronglySorted Z.le (got_depths (log st)) /\
  (forall y, y ∈ got_depths (log st) -> y <= d) /\
  StronglySorted Z.le (fetch_depths (log st)) /\
  (forall y, y ∈ fetch_depths (log st) -> y <= d).


Section Origins.

Variable cfg : config.
Variable domain : string.

(** Every task is the start task or a link that line 110 put on the queue,
    and the depths stay within the bounds the loop enforces. *)
Definition origin_inv (st : cstate) : Prop :=
  (forall u d, (u, d) ∈ queue st ->
     (u, d) = ("https://" +:+ domain, 0) \/ EvPut u d ∈ log st) /\
  (forall u d v, EvGet u d v ∈ log st ->
     (u, d) = ("https://" +:+ domain, 0) \/ EvPut u d ∈ log st) /\
  (forall u d v0 v, EvFetch u d v0 v ∈ log st ->
     0 <= d <= max_depth cfg /\
     ((u, d) = ("https://" +:+ domain, 0) \/ EvPut u d ∈ log st)) /\
  (forall u d, EvPut u d ∈ log st ->
     1 <= d <= max_depth cfg + 1 /\
     is_product_url u = false /\ Str.str_in domain u = true).

(** No URL is both visited and recorded as a product. The last two parts
    are what keeps it so: until the root is visited nothing is recorded and
    the queue holds the start task only, and whatever else is queued is not
    a product URL. *)
Definition disjoint_inv (st : cstate) : Prop :=
  visited st ## product_urls st /\
  (forall u, u ∈ product_urls st -> is_product_url u = true) /\
  (("https://" +:+ domain) ∈ visited st \/
   (product_urls st = ∅ /\
    forall t, t ∈ queue st -> t = ("https://" +:+ domain, 0))) /\
  (forall u d, (u, d) ∈ queue st ->
     (u, d) = ("https://" +:+ domain, 0) \/ is_product_url u = false).

(** Nothing that was queued is lost: the start task and every link put on
    the queue are still queued or were dequeued, and a dequeued task within
    [max_depth] has its URL in [visited] once its iteration is over. *)
Definition cover_inv (st : cstate) : Prop :=
  (("https://" +:+ domain, 0) ∈ queue st \/
   exists v, EvGet ("https://" +:+ domain) 0 v ∈ log st) /\
  (forall u d, EvPut u d ∈ log st ->
     (u, d) ∈ queue st \/ exists v, EvGet u d v ∈ log st) /\
  (forall u d v, EvGet u d v ∈ log st -> d <= max_depth cfg -> u ∈ visited st).


End Origins.


End Crawler.

(* ===================================================================== *)
(** ** The orchestrator: [crawl_domains] *)
(* ===================================================================== *)

Module Orchestrator.
Import Crawler.

(** A domain task, the coroutine [crawl_with_semaphore(domain)]. *)
Inductive task :=
| Waiting (domain : string)
    (* created (line 133), not yet past [async with semaphore] *)
| Crawling (domain : string) (st : cstate)
    (* holds the semaphore and runs [crawl_domain], whose locals are [st] *)
| Finished (domain : string)
    (* [results[domain]] is written and the semaphore released *)
| Failed (domain : string) (e : exn).
    (* [crawl_domain] raised; leaving [async with] released the semaphore *)

(** What the tasks of one [crawl_domains] call share. *)
Record ostate (World : Type) := OState {
  sem_value : Z;                        (* the counter of asyncio.Semaphore *)
  tasks : list task;                    (* one per domain, in list order *)
  results : gmap string (list string);  (* the dict [results] *)
  net : World
}.
Arguments OState {World} _ _ _ _.
Arguments sem_value {World} _.
Arguments tasks {World} _.
Arguments results {World} _.
Arguments net {World} _.

(** The tasks that are inside [async with semaphore]. *)
Fixpoint crawling (ts : list task) : nat :=
  match ts with
  | [] => O
  | Crawling _ _ :: ts' => S (crawling ts')
  | _ :: ts' => crawling ts'
  end.

(** 1 for a task that holds the semaphore, 0 for the others. *)
Definition active (t : task) : nat :=
  match t with Crawling _ _ => 1%nat | _ => 0%nat end.

Section Gather.

Variable World : Type.
Variable session_get : World -> string -> World * result response.
Variable parse_links : string -> string -> result (list string).
Variable cfg : config.

(** Lines 122-133. [asyncio.Semaphore(value)] raises [ValueError] on a
    negative value, in which case no task is ever created. *)
Definition start (domains : list string) (w : World) : option (ostate World) :=
  if max_concurrent_requests cfg <? 0 then None
  else Some (OState (max_concurrent_requests cfg) (Waiting <$> domains) ∅ w).

(** The moves of the event loop under [asyncio.gather]. Which task moves
    next is up to the event loop and the network, so this is a relation.
    A task is admitted only while the counter is positive
    ([Semaphore.acquire]); a crawling task runs its loop one iteration at a
    time; leaving the [async with] block, by return or by exception, gives
    the slot back ([Semaphore.release]). *)
Inductive ostep : ostate World -> ostate World -> Prop :=
| step_acquire s i d :
    tasks s !! i = Some (Waiting d) ->
    0 < sem_value s ->
    ostep s (OState (sem_value s - 1)
                    (<[i := Crawling d (state_of_start d)]> (tasks s))
                    (results s) (net s))
| step_iterate s i d st st' w' :
    tasks s !! i = Some (Crawling d st) ->
    loop_guard cfg st = true ->
    loop_body World session_get parse_links cfg d st (net s) = (Normal st', w') ->
    ostep s (OState (sem_value s) (<[i := Crawling d st']> (tasks s)) (results s) w')
| step_raise s i d st e st' w' :
    tasks s !! i = Some (Crawling d st) ->
    loop_guard cfg st = true ->
    loop_body World session_get parse_links cfg d st (net s) = (Raised e st', w') ->
    ostep s (OState (sem_value s + 1) (<[i := Failed d e]> (tasks s)) (results s) w')
| step_return s i d st :
    tasks s !! i = Some (Crawling d st) ->
    loop_guard cfg st = false ->
    ostep s (OState (sem_value s + 1) (<[i := Finished d]> (tasks s))
                    (<[d := elements (product_urls st)]> (results s)) (net s)).

(** The counter of the semaphore and the tasks inside [async with] add up
    to the value the semaphore was created with. *)
Definition sem_inv (s : ostate World) : Prop :=
  0 <= sem_value s /\
  sem_value s + Z.of_nat (crawling (tasks s)) = max_concurrent_requests cfg.

End Gather.

(** The domain a task was created for. *)
Definition task_domain (t : task) : string :=
  match t with
  | Waiting d | Crawling d _ | Finished d | Failed d _ => d
  end.

(** A task that has not ended yet. *)
Definition pending (t : task) : bool :=
  match t with
  | Waiting _ | Crawling _ _ => true
  | Finished _ | Failed _ _ => false
  end.

Section Results.

Variable World : Type.
Variable domains : list string.

(** The tasks are those of [domains], in order; every crawling task is at a
    point where its queue and products are accounted for by its log; what
    is in [results] was written by a finished task and holds product URLs
    only. *)
Definition results_inv (s : ostate World) : Prop :=
  task_domain <$> tasks s = domains /\
  (forall i d st, tasks s !! i = Some (Crawling d st) -> links_inv d st) /\
  (forall d urls, results s !! d = Some urls ->
     (exists i, tasks s !! i = Some (Finished d)) /\
     forall u, u ∈ urls -> is_product_url u = true) /\
  (forall i d, tasks s !! i = Some (Finished d) -> is_Some (results s !! d)).

End Results.


End Orchestrator.

(* ===================================================================== *)
(** ** A small web for running the crawler *)
(* ===================================================================== *)

Module Fixture.
Import Crawler Orchestrator.

Fixpoint assoc {A : Type} (k : string) (l : list (string * A)) : option A :=
  match l with
  | [] => None
  | (k', a) :: l' => if String.eqb k k' then Some a else assoc k l'
  end.

(** A network given by a table from URL to response; a URL that is not in
    the table cannot be reached. The world counts the requests made. *)
Definition site_get (site : list (string * response)) (w : nat) (url : string)
    : nat * result response :=
  (S w, match assoc url site with
        | Some r => Ok r
        | None => Raise (ClientError "cannot connect")
        end).

(** A link extractor given by a table from page body to links; a body that
    is not in the table has no links. *)
Definition table_links (pages : list (string * list string)) (html base_url : string)
    : result (list string) :=
  Ok (match assoc html pages with Some l => l | None => [] end).

(** A link extractor that knows the pages of the table only, and raises
    on every other body. *)
Definition picky_links (pages : list (string * list string)) (html base_url : string)
    : result (list string) :=
  match assoc html pages with
  | Some l => Ok l
  | None => Raise (OtherError "no parser for this page")
  end.

(** A link extractor that fails on every page. *)
Definition broken_links (html base_url : string) : result (list string) :=
  Raise (OtherError "Invalid IPv6 URL").

Definition page (body : string) : response := Response 200 (Ok body).

(** example.com: the root links to a product page and to /about. *)
Definition shop_site : list (string * response) :=
  [("https://example.com", page "root");
   ("https://example.com/about", page "about")].

Definition shop_pages : list (string * list string) :=
  [("root", ["https://example.com/product/42"; "https://example.com/about"]);
   ("about", ["https://example.com"; "https://other.org/item/7";
              "https://example.com/search?next=/p/"])].

(** The same site with the server answering 503 on the root. *)
Definition down_site : list (string * response) :=
  [("https://example.com", Response 503 (Ok "Service Unavailable"))].

Definition shop_cfg : config := Config 2 10 3.   (* follows links *)
Definition flat_cfg : config := Config 0 10 3.   (* [max_depth = 0] *)

Definition shop_run (cfg : config) (fuel : nat) : option (outcome * nat) :=
  crawl_domain nat (site_get shop_site) (table_links shop_pages) cfg fuel
    "example.com" 0%nat.

(** Where the crawl of example.com ends (ten rounds of fuel are enough). *)
Definition shop_end (cfg : config) : outcome * nat :=
  default (Normal (state_of_start "example.com"), 0%nat) (shop_run cfg 10).

(** Where it stands after the first iteration, the fetch of the root. *)
Definition shop_mid (cfg : config) : outcome * nat :=
  loop_body nat (site_get shop_site) (table_links shop_pages) cfg
    "example.com" (state_of_start "example.com") 0%nat.

(** What [crawl_domain] returns for example.com. *)
Definition shop_urls : list string :=
  elements (product_urls (state_of (shop_end shop_cfg).1)).

(** [crawl_domains(["example.com"])] when its one task has finished. *)
Definition shop_done : ostate nat :=
  OState 3 [Finished "example.com"] (<["example.com" := shop_urls]> ∅)
         (shop_end shop_cfg).2.

(** Three domains waiting for two slots. *)
Definition three_domains : list string := ["a.example"; "b.example"; "c.example"].
Definition two_slots : config := Config 2 10 2.

(** The state [crawl_domains] starts the three tasks in, and the state with
    the first two admitted. *)
Definition slots_start : ostate nat :=
  OState 2 [Waiting "a.example"; Waiting "b.example"; Waiting "c.example"] ∅ 0%nat.

Definition slots_full : ostate nat :=
  OState 0 [Crawling "a.example" (state_of_start "a.example");
            Crawling "b.example" (state_of_start "b.example");
            Waiting "c.example"] ∅ 0%nat.

End Fixture.

(* ===================================================================== *)
(** * Properties *)
(* ===================================================================== *)

(** ** Substring search *)

Module StrFacts.
Import Str.

#[local] Arguments String.append !_ _ / : simpl nomatch.

Lemma starts_with_spec sub s :
  starts_with sub s = true <-> exists post, s = sub +:+ post.
Proof.
  revert s. induction sub as [|a sub IH]; intros s; simpl.
  - split; [intros _; exists s; reflexivity | reflexivity].
  - destruct s as [|b s].
    + split; [discriminate | intros [post H]; discriminate].
    + destruct (Ascii.eqb_spec a b) as [->|Hne].
      * rewrite IH. split; intros [post H]; exists post.
        -- simpl. congruence.
        -- simpl in H. congruence.
      * split; [discriminate | intros [post H]; simpl in H; congruence].
Qed.

Lemma str_in_spec sub s :
  str_in sub s = true <-> exists pre post, s = pre +:+ sub +:+ post.
Proof.
  induction s as [|c s IH]; simpl.
  - destruct (starts_with sub "") eqn:E.
    + split; [intros _|reflexivity].
      apply starts_with_spec in E as [post E]. exists "", post. exact E.
    + split; [discriminate|]. intros [pre [post H]].
      destruct pre; simpl in H; [|discriminate].
      assert (starts_with sub "" = true) by (apply starts_with_spec; eauto).
      congruence.
  - destruct (starts_with sub (String c s)) eqn:E.
    + split; [intros _|reflexivity].
      apply starts_with_spec in E as [post E]. exists "", post. exact E.
    + rewrite IH. split.
      * intros [pre [post H]]. exists (String c pre), post. simpl. congruence.
      * intros [pre [post H]]. destruct pre as [|c' pre]; simpl in H.
        -- assert (starts_with sub (String c s) = true)
             by (apply starts_with_spec; eauto).
           congruence.
        -- exists pre, post. congruence.
Qed.

(** On a pattern without special characters, [re.search] is the substring
    test. *)
Lemma re_search_str_in pattern s : re_search pattern s = str_in pattern s.
Proof. induction s as [|c s IH]; simpl; [|rewrite IH]; reflexivity. Qed.

Lemma append_assoc (a b c : string) : (a +:+ b) +:+ c = a +:+ b +:+ c.
Proof. induction a as [|x a IH]; simpl; [|rewrite IH]; reflexivity. Qed.

Lemma append_nil_r (a : string) : a +:+ "" = a.
Proof. induction a as [|x a IH]; simpl; [|rewrite IH]; reflexivity. Qed.

Lemma str_in_trans a b c : str_in a b = true -> str_in b c = true -> str_in a c = true.
Proof.
  rewrite !str_in_spec. intros [p1 [q1 ->]] [p2 [q2 ->]].
  exists (p2 +:+ p1), (q1 +:+ q2). now rewrite !append_assoc.
Qed.

Lemma str_in_append_r a pre s : str_in a s = true -> str_in a (pre +:+ s) = true.
Proof.
  rewrite !str_in_spec. intros [p [q ->]]. exists (pre +:+ p), q.
  now rewrite !append_assoc.
Qed.

Lemma str_in_append_l a s post : str_in a s = true -> str_in a (s +:+ post) = true.
Proof.
  rewrite !str_in_spec. intros [p [q ->]]. exists p, (q +:+ post).
  now rewrite !append_assoc.
Qed.

Lemma append_length (a b : string) :
  String.length (a +:+ b) = (String.length a + String.length b)%nat.
Proof. induction a as [|x a IH]; simpl; [|rewrite IH]; reflexivity. Qed.

(** A string with something appended is a different string. *)
Lemma append_ne (a : string) c b : a +:+ String c b <> a.
Proof.
  intros H. apply (f_equal String.length) in H.
  rewrite append_length in H. simpl in H. lia.
Qed.

(** *** The path component on some URLs *)

Example url_path_books :
  url_path "https://books.toscrape.com/catalogue/page-2.html?x=1#top"
  = Some "/catalogue/page-2.html".
Proof. reflexivity. Qed.

(** Parameters of the last segment are not part of the path. *)
Example url_path_params : url_path "http://a/b;c" = Some "/b".
Proof. reflexivity. Qed.

Example url_path_params_inner : url_path "HTTP://a/b;c/d;e?f" = Some "/b;c/d".
Proof. reflexivity. Qed.

(** A tab inside the URL is removed before the URL is split. *)
Example url_path_tab :
  url_path ("https://example.com/p" +:+ String (ascii_of_nat 9) "/") = Some "/p/".
Proof. reflexivity. Qed.

Example url_path_no_scheme : url_path "  //example.com/a/b#c" = Some "/a/b".
Proof. reflexivity. Qed.

Example url_path_bracket : url_path "http://[bad/p/" = None.
Proof. reflexivity. Qed.

End StrFacts.

(* ===================================================================== *)
(** ** The classifier *)
(* ===================================================================== *)

Module ClassifierFacts.
Import Str StrFacts Crawler.

(** None of the product patterns uses a special character, which is what
    lets [Str.re_search] stand for [re.search] on them. *)
Lemma patterns_literal : forallb is_literal PRODUCT_PATTERNS = true.
Proof. reflexivity. Qed.

Lemma is_product_url_str_in url :
  is_product_url url = true <->
  exists pattern, pattern ∈ PRODUCT_PATTERNS /\ str_in pattern url = true.
Proof.
  unfold is_product_url. rewrite existsb_exists.
  split; intros [p [Hp H]]; exists p; split;
    try (apply list_elem_of_In; exact Hp);
    try (rewrite <- re_search_str_in; exact H);
    try (rewrite re_search_str_in; exact H).
Qed.

(** A string that contains a longer piece starting with a pattern is a
    product URL. *)
Lemma is_product_url_contains pattern piece url :
  pattern ∈ PRODUCT_PATTERNS ->
  str_in pattern piece = true -> str_in piece url = true ->
  is_product_url url = true.
Proof.
  intros Hp H1 H2. apply is_product_url_str_in. exists pattern.
  split; [exact Hp|]. eapply str_in_trans; eassumption.
Qed.

(** C4, as stated, fails: a pattern in the query string makes
    [is_product_url] true although the path, [/search], matches nothing. *)
Lemma C4_query_string_counterexample :
  ~ (is_product_url "https://example.com/search?next=/p/" = true <->
     is_product_path "https://example.com/search?next=/p/" = Some true).
Proof. vm_compute. intros [H _]. specialize (H eq_refl). discriminate. Qed.

(** The path matching is not enough either: [urlparse] removes a tab
    before it splits the URL, [re.search] on the whole string does not. *)
Example path_match_not_sufficient :
  is_product_path ("https://example.com/p" +:+ String (ascii_of_nat 9) "/") = Some true /\
  is_product_url ("https://example.com/p" +:+ String (ascii_of_nat 9) "/") = false.
Proof. vm_compute. split; reflexivity. Qed.

(** C4, amended: [is_product_url url] is true exactly when one of the four
    patterns occurs somewhere in the whole URL string, in the path
    component or outside it. *)
Theorem C4_is_product_url_whole_string url :
  is_product_url url = true <->
  exists pattern pre post,
    pattern ∈ PRODUCT_PATTERNS /\ url = pre +:+ pattern +:+ post.
Proof.
  rewrite is_product_url_str_in. split.
  - intros [p [Hp H]]. apply str_in_spec in H as [pre [post H]]. eauto.
  - intros [p [pre [post [Hp H]]]]. exists p. split; [exact Hp|].
    apply str_in_spec. eauto.
Qed.

(** X2: A string that contains a product URL is a product URL: whatever is put
    before or after one (a query string, a deeper path, another host in
    front) does not change the verdict. *)
Theorem is_product_url_embedded (url pre post : string) :
  is_product_url url = true -> is_product_url (pre +:+ url +:+ post) = true.
Proof.
  intros H. apply is_product_url_str_in in H as (p & Hp & Hin).
  apply (is_product_url_contains p url); [exact Hp|exact Hin|].
  apply str_in_spec. eauto.
Qed.


End ClassifierFacts.

(* ===================================================================== *)
(** ** The traversal of one domain *)
(* ===================================================================== *)

Module CrawlFacts.
Import Str StrFacts Crawler ClassifierFacts.

Lemma fetched_app l1 l2 : fetched (l1 ++ l2) = fetched l1 ++ fetched l2.
Proof.
  induction l1 as [|e l1 IH]; [reflexivity|].
  destruct e; simpl; rewrite IH; reflexivity.
Qed.

Lemma elem_of_fetched u l :
  u ∈ fetched l <-> exists d v0 v, EvFetch u d v0 v ∈ l.
Proof.
  induction l as [|e l IH]; simpl.
  - split; [intros H; inversion H | intros [d [v0 [v H]]]; inversion H].
  - destruct e; rewrite ?elem_of_cons, IH; setoid_rewrite elem_of_cons; naive_solver.
Qed.

(** The last entry of [l ++ [e]] is [e]; every other entry is in [l]. *)
Lemma snoc_split {A} (l l1 l2 : list A) (e x : A) :
  l ++ [e] = l1 ++ x :: l2 ->
  (l2 = [] /\ l = l1 /\ e = x) \/ (exists l2', l2 = l2' ++ [e] /\ l = l1 ++ x :: l2').
Proof.
  intros H. destruct l2 as [|y l2 _] using rev_ind.
  - left. apply app_inj_tail in H as [-> ->]. done.
  - right. exists l2. rewrite app_comm_cons, app_assoc in H.
    apply app_inj_tail in H as [-> ->]. done.
Qed.

Section Traversal.

Context {World : Type}.
Variable session_get : World -> string -> World * result response.
Variable parse_links : string -> string -> result (list string).
Variable cfg : config.
Variable domain : string.

Local Abbreviation fetch_url := (Crawler.fetch_url World session_get).
Local Abbreviation loop_guard := (Crawler.loop_guard cfg).
Local Abbreviation loop_body := (Crawler.loop_body World session_get parse_links cfg domain).
Local Abbreviation while_loop := (Crawler.while_loop World session_get parse_links cfg).
Local Abbreviation crawl_domain := (Crawler.crawl_domain World session_get parse_links cfg).
Local Abbreviation iter := (Crawler.iter World session_get parse_links cfg domain).
Local Abbreviation reaches := (Crawler.reaches World session_get parse_links cfg domain).
Local Abbreviation process_link := (Crawler.process_link domain).
Local Abbreviation root := ("https://" +:+ domain).
Local Abbreviation fetches_ok := (Crawler.fetches_ok cfg).
Local Abbreviation links_inv := (Crawler.links_inv domain).
Local Abbreviation pages_inv := (Crawler.pages_inv World session_get parse_links).
Local Abbreviation budget_left := (Crawler.budget_left cfg).

(** *** What one step does *)

Lemma process_link_cases page depth st link :
  let e := EvLink page link (visited st) in
  (link ∈ visited st /\
   process_link page depth st link =
     CState (queue st) (visited st) (product_urls st) (log st ++ [e])) \/
  ((link ∉ visited st) /\ is_product_url link = true /\
   process_link page depth st link =
     CState (queue st) (visited st) ({[link]} ∪ product_urls st)
            ((log st ++ [e]) ++ [EvAdd link])) \/
  ((link ∉ visited st) /\ is_product_url link = false /\ str_in domain link = true /\
   process_link page depth st link =
     CState (queue st ++ [(link, depth + 1)]) (visited st) (product_urls st)
            ((log st ++ [e]) ++ [EvPut link (depth + 1)])) \/
  ((link ∉ visited st) /\ is_product_url link = false /\ str_in domain link = false /\
   process_link page depth st link =
     CState (queue st) (visited st) (product_urls st) (log st ++ [e])).
Proof.
  intros e. unfold Crawler.process_link, note. simpl.
  case_bool_decide as Hv; [left; done|right].
  destruct (is_product_url link); [left; done|right].
  destruct (str_in domain link); [left; done|right; done].
Qed.

Lemma fold_process_link_ind (P : cstate -> Prop) page depth links st :
  P st ->
  (forall st' link, link ∈ links -> P st' -> P (process_link page depth st' link)) ->
  P (fold_left (process_link page depth) links st).
Proof.
  revert st. induction links as [|l links IH]; intros st H0 Hstep; simpl; [exact H0|].
  apply IH.
  - apply Hstep; [left|exact H0].
  - intros st' link Hin. apply Hstep. right. exact Hin.
Qed.

Lemma loop_guard_true st :
  loop_guard st = true <-> queue st <> [] /\ Z.of_nat (size (visited st)) < max_pages cfg.
Proof.
  unfold Crawler.loop_guard. rewrite andb_true_iff, negb_true_iff, bool_decide_eq_false.
  rewrite Z.ltb_lt. reflexivity.
Qed.

Lemma loop_body_cases st w o w' :
  loop_guard st = true -> loop_body st w = (o, w') ->
  exists url depth rest,
    queue st = (url, depth) :: rest /\
    Z.of_nat (size (visited st)) < max_pages cfg /\
    (((max_depth cfg < depth \/ url ∈ visited st) /\
      o = Normal (after_get st url depth rest) /\ w' = w) \/
     (depth <= max_depth cfg /\ (url ∉ visited st) /\
      ((fetch_url w url = (w', None) /\ o = Normal (after_visit st url depth rest)) \/
       (exists html e, fetch_url w url = (w', Some html) /\
                       parse_links html url = Raise e /\
                       o = Raised e (after_visit st url depth rest)) \/
       (exists html links, fetch_url w url = (w', Some html) /\
                           parse_links html url = Ok links /\
                           o = Normal (fold_left (process_link url depth) links
                                         (note (EvPage url html links)
                                               (after_visit st url depth rest))))))).
Proof.
  intros Hg Hb. apply loop_guard_true in Hg as [Hq Hsz].
  unfold Crawler.loop_body in Hb.
  destruct (queue st) as [|[url depth] rest] eqn:Eq; [done|].
  exists url, depth, rest. split; [reflexivity|]. split; [exact Hsz|].
  destruct (depth >? max_depth cfg) eqn:Ed; simpl in Hb.
  - left. inversion Hb; subst. split; [left; apply Z.gtb_lt in Ed; lia|done].
  - assert (depth <= max_depth cfg) as Hd.
    { destruct (Z.gtb_spec depth (max_depth cfg)); [discriminate|lia]. }
    case_bool_decide as Hv.
    + left. inversion Hb; subst. split; [right; exact Hv|done].
    + right. split; [exact Hd|]. split; [exact Hv|].
      destruct (fetch_url w url) as [w1 [html|]] eqn:Ef.
      * destruct (parse_links html url) as [links|e] eqn:Ep; inversion Hb; subst.
        -- right. right. exists html, links. done.
        -- right. left. exists html, e. done.
      * inversion Hb; subst. left. done.
Qed.

(** *** Invariants carry over to every point of a traversal *)

Lemma rtc_iter_inv (P : cstate -> Prop) :
  (forall st w o w', P st -> loop_guard st = true -> loop_body st w = (o, w') ->
                     P (state_of o)) ->
  forall c c', rtc iter c c' -> P (state_of c.1) -> P (state_of c'.1).
Proof.
  intros Hstep c c' Hrtc. induction Hrtc as [c|c1 c2 c3 H12 _ IH]; [done|].
  intros H1. apply IH. destruct H12 as [st w o w' Hg Hb]. simpl in *. eauto.
Qed.

Lemma reaches_inv (P : cstate -> Prop) :
  P (state_of_start domain) ->
  (forall st w o w', P st -> loop_guard st = true -> loop_body st w = (o, w') ->
                     P (state_of o)) ->
  forall w0 o w, reaches w0 o w -> P (state_of o).
Proof.
  intros H0 Hstep w0 o w Hr.
  apply (rtc_iter_inv P Hstep _ _ Hr). exact H0.
Qed.

(** *** [visited] and the fetches *)

Lemma process_link_visited page depth st link :
  visited (process_link page depth st link) = visited st.
Proof.
  destruct (process_link_cases page depth st link)
    as [[_ ->]|[[_ [_ ->]]|[[_ [_ [_ ->]]]|[_ [_ [_ ->]]]]]]; reflexivity.
Qed.

Lemma process_link_fetched page depth st link :
  fetched (log (process_link page depth st link)) = fetched (log st).
Proof.
  destruct (process_link_cases page depth st link)
    as [[_ ->]|[[_ [_ ->]]|[[_ [_ [_ ->]]]|[_ [_ [_ ->]]]]]];
    simpl; rewrite !fetched_app; simpl; rewrite ?app_nil_r; reflexivity.
Qed.

Lemma process_link_snapshots page depth st link :
  snapshots_below st -> snapshots_below (process_link page depth st link).
Proof.
  intros H e v. rewrite process_link_visited.
  destruct (process_link_cases page depth st link)
    as [[_ ->]|[[_ [_ ->]]|[[_ [_ [_ ->]]]|[_ [_ [_ ->]]]]]]; simpl;
    rewrite ?elem_of_app, ?list_elem_of_singleton;
    intros Hin Hv; destruct_or?; subst; simpl in Hv; simplify_eq;
    try done; eapply H; eassumption.
Qed.

Lemma visited_inv_start : visited_inv (state_of_start domain).
Proof.
  split; [constructor|]. split; [reflexivity|].
  intros e v H. inversion H.
Qed.

Lemma fold_process_link_visited_inv page depth links st :
  visited_inv st -> visited_inv (fold_left (process_link page depth) links st).
Proof.
  intros H. apply fold_process_link_ind; [exact H|].
  intros st' link _ [Hn [Hv Hs]]. unfold visited_inv.
  rewrite process_link_fetched, process_link_visited.
  auto using process_link_snapshots.
Qed.

Lemma after_visit_visited_inv st url depth rest :
  url ∉ visited st -> visited_inv st -> visited_inv (after_visit st url depth rest).
Proof.
  intros Hv [Hn [Heq Hs]]. unfold visited_inv, after_visit, snapshots_below. simpl.
  rewrite !fetched_app. simpl. rewrite app_nil_r.
  split; [|split].
  - apply NoDup_app. split; [exact Hn|]. split; [|apply NoDup_singleton].
    intros x Hx Hx'. apply list_elem_of_singleton in Hx'. subst x.
    apply Hv. rewrite Heq. apply elem_of_list_to_set. exact Hx.
  - rewrite list_to_set_app_L, <- Heq. simpl. set_solver.
  - intros e v. rewrite !elem_of_app, !list_elem_of_singleton.
    intros Hin Hev. destruct_or?; subst; simpl in Hev; simplify_eq.
    + apply (Hs e v) in Hev; [set_solver|done].
    + set_solver.
    + set_solver.
Qed.

Lemma visited_inv_step st w o w' :
  visited_inv st -> loop_guard st = true -> loop_body st w = (o, w') ->
  visited_inv (state_of o).
Proof.
  intros Hinv Hg Hb.
  destruct (loop_body_cases st w o w' Hg Hb) as (url & depth & rest & Hq & Hsz & Hc).
  destruct Hc as [(_ & -> & _)|(Hd & Hv & [(_ & ->)|[(h & e & _ & _ & ->)|(h & ls & _ & _ & ->)]])];
    simpl.
  - destruct Hinv as [Hn [Heq Hs]]. unfold visited_inv, snapshots_below. simpl.
    rewrite fetched_app. simpl. rewrite app_nil_r.
    split; [exact Hn|]. split; [exact Heq|].
    intros e v. rewrite elem_of_app, list_elem_of_singleton.
    intros Hin Hev. destruct_or?; subst; simpl in Hev; simplify_eq; [eauto|done].
  - apply after_visit_visited_inv; assumption.
  - apply after_visit_visited_inv; assumption.
  - apply fold_process_link_visited_inv.
    pose proof (after_visit_visited_inv st url depth rest Hv Hinv) as [Hn [Heq Hs]].
    unfold visited_inv, snapshots_below, note. simpl in *.
    rewrite fetched_app. simpl. rewrite app_nil_r.
    split; [exact Hn|]. split; [exact Heq|].
    intros e v. rewrite (elem_of_app _ [_]), list_elem_of_singleton.
    intros Hin Hev. destruct Hin as [Hin| ->]; [eauto|discriminate].
Qed.

Lemma fold_process_link_visited page depth links st :
  visited (fold_left (process_link page depth) links st) = visited st.
Proof.
  apply (fold_process_link_ind (fun st' => visited st' = visited st)); [reflexivity|].
  intros st' link _ H. rewrite process_link_visited. exact H.
Qed.

(** One iteration adds at most the dequeued URL to [visited], and only
    while the budget has room. *)
Lemma visited_step st w o w' :
  loop_guard st = true -> loop_body st w = (o, w') ->
  visited st ⊆ visited (state_of o) /\
  (Z.of_nat (size (visited st)) <= max_pages cfg ->
   Z.of_nat (size (visited (state_of o))) <= max_pages cfg).
Proof.
  intros Hg Hb.
  destruct (loop_body_cases st w o w' Hg Hb) as (url & depth & rest & Hq & Hsz & Hc).
  assert (Z.of_nat (size ({[url]} ∪ visited st)) <= max_pages cfg) as Hone.
  { pose proof (size_union_alt {[url]} (visited st)) as Hu.
    pose proof (subseteq_size (visited st ∖ {[url]}) (visited st)) as Hle.
    rewrite size_singleton in Hu.
    assert (size (visited st ∖ {[url]}) <= size (visited st))%nat by (apply Hle; set_solver).
    lia. }
  destruct Hc as [(_ & -> & _)|(Hd & Hv & [(_ & ->)|[(h & e & _ & _ & ->)|(h & ls & _ & _ & ->)]])];
    simpl; rewrite ?fold_process_link_visited; simpl; split; try done; set_solver.
Qed.


(** *** The loop, run with fuel, only goes through points of the traversal *)

Lemma while_loop_rtc fuel st w o w' :
  while_loop fuel domain st w = Some (o, w') -> rtc iter (Normal st, w) (o, w').
Proof.
  revert st w. induction fuel as [|fuel IH]; intros st w H; simpl in H; [discriminate|].
  destruct (loop_guard st) eqn:Hg; [|inversion H; subst; apply rtc_refl].
  destruct (loop_body st w) as [[st1|e st1] w1] eqn:Hb.
  - eapply rtc_l; [apply (iter_intro _ _ _ _ _ _ _ _ _ Hg Hb)|]. apply IH. exact H.
  - inversion H; subst. apply rtc_once. apply (iter_intro _ _ _ _ _ _ _ _ _ Hg Hb).
Qed.

Lemma crawl_domain_reaches fuel w0 o w :
  crawl_domain fuel domain w0 = Some (o, w) -> reaches w0 o w.
Proof. apply while_loop_rtc. Qed.

Lemma visited_mono c c' :
  rtc iter c c' -> visited (state_of c.1) ⊆ visited (state_of c'.1).
Proof.
  induction 1 as [c|c1 c2 c3 H12 _ IH]; [done|].
  destruct H12 as [st w o w' Hg Hb]. simpl in *.
  destruct (visited_step st w o w' Hg Hb) as [Hsub _]. set_solver.
Qed.

Lemma size_within_budget w0 o w :
  0 <= max_pages cfg -> reaches w0 o w ->
  Z.of_nat (size (visited (state_of o))) <= max_pages cfg.
Proof.
  intros Hp.
  apply (reaches_inv (fun st => Z.of_nat (size (visited st)) <= max_pages cfg)).
  - change (Z.of_nat (size (∅ : gset string)) <= max_pages cfg).
    rewrite size_empty. exact Hp.
  - intros st w1 o1 w1' H Hg Hb. apply (visited_step st w1 o1 w1' Hg Hb). exact H.
Qed.

Lemma reaches_visited_inv w0 o w : reaches w0 o w -> visited_inv (state_of o).
Proof.
  apply (reaches_inv visited_inv); [apply visited_inv_start|].
  eauto using visited_inv_step.
Qed.

(** C1: with [max_pages > 0], at every point of a traversal of [domain]
    (whatever the network and the link extractor do): [visited] has at most
    [max_pages] elements; so had every value of [visited] written to the log
    on the way, and each of them is contained in the current one; at every
    later point [visited] contains the current one; and [fetch_url] has been
    called at most [max_pages] times. *)
Theorem C1_visited_within_budget (w0 : World) (o : outcome) (w : World) :
  0 < max_pages cfg ->
  reaches w0 o w ->
  Z.of_nat (size (visited (state_of o))) <= max_pages cfg /\
  (forall e v, e ∈ log (state_of o) -> ev_visited e = Some v ->
     v ⊆ visited (state_of o) /\ Z.of_nat (size v) <= max_pages cfg) /\
  (forall o' w', rtc iter (o, w) (o', w') ->
     visited (state_of o) ⊆ visited (state_of o') /\
     Z.of_nat (size (visited (state_of o'))) <= max_pages cfg) /\
  Z.of_nat (length (fetched (log (state_of o)))) <= max_pages cfg.
Proof.
  intros Hp Hr.
  assert (Z.of_nat (size (visited (state_of o))) <= max_pages cfg) as Hsz
    by (apply (size_within_budget w0 o w); [lia|exact Hr]).
  destruct (reaches_visited_inv w0 o w Hr) as [Hn [Heq Hs]].
  split; [exact Hsz|]. split; [|split].
  - intros e v Hin Hev. pose proof (Hs e v Hin Hev) as Hsub.
    split; [exact Hsub|]. apply subseteq_size in Hsub. lia.
  - intros o' w' Hrtc. split.
    + apply (visited_mono _ _ Hrtc).
    + apply (size_within_budget w0 o' w'); [lia|].
      unfold Crawler.reaches. etrans; [exact Hr|exact Hrtc].
  - rewrite Heq, size_list_to_set in Hsz by exact Hn. exact Hsz.
Qed.


(** *** Every fetch follows the dequeue of a task that passed the checks *)

Lemma fetches_ok_snoc l e :
  is_fetch e = false -> fetches_ok l -> fetches_ok (l ++ [e]).
Proof.
  intros He H l1 l2 u d v0 v Heq.
  apply snoc_split in Heq as [(_ & _ & ->)|(l2' & _ & Heq)]; [discriminate|].
  eapply H. exact Heq.
Qed.

Lemma fetches_ok_fetch l u d v0 :
  d <= max_depth cfg -> u ∉ v0 -> fetches_ok l ->
  fetches_ok ((l ++ [EvGet u d v0]) ++ [EvFetch u d v0 ({[u]} ∪ v0)]).
Proof.
  intros Hd Hu H l1 l2 u' d' v0' v' Heq.
  apply snoc_split in Heq as [(_ & <- & Heq)|(l2' & _ & Heq)].
  - inversion Heq; subst. eauto.
  - eapply (fetches_ok_snoc l (EvGet u d v0)); [reflexivity|exact H|exact Heq].
Qed.

Lemma process_link_fetches_ok page depth st link :
  fetches_ok (log st) -> fetches_ok (log (process_link page depth st link)).
Proof.
  intros H.
  destruct (process_link_cases page depth st link)
    as [[_ ->]|[[_ [_ ->]]|[[_ [_ [_ ->]]]|[_ [_ [_ ->]]]]]]; simpl;
    repeat (apply fetches_ok_snoc; [reflexivity|]); exact H.
Qed.

Lemma fetches_ok_step st w o w' :
  fetches_ok (log st) -> loop_guard st = true -> loop_body st w = (o, w') ->
  fetches_ok (log (state_of o)).
Proof.
  intros H Hg Hb.
  destruct (loop_body_cases st w o w' Hg Hb) as (url & depth & rest & Hq & Hsz & Hc).
  destruct Hc as [(_ & -> & _)|(Hd & Hv & [(_ & ->)|[(h & e & _ & _ & ->)|(h & ls & _ & _ & ->)]])];
    simpl.
  - apply fetches_ok_snoc; [reflexivity|exact H].
  - apply fetches_ok_fetch; assumption.
  - apply fetches_ok_fetch; assumption.
  - apply (fold_process_link_ind (fun st' => fetches_ok (log st'))).
    + simpl. apply fetches_ok_snoc; [reflexivity|]. apply fetches_ok_fetch; assumption.
    + intros st' link _. apply process_link_fetches_ok.
Qed.

Lemma reaches_fetches_ok w0 o w : reaches w0 o w -> fetches_ok (log (state_of o)).
Proof.
  apply (reaches_inv (fun st => fetches_ok (log st))).
  - intros l1 l2 u d v0 v H. destruct l1; discriminate.
  - eauto using fetches_ok_step.
Qed.

(** C2: at every point of a traversal, each call of [fetch_url] in the log
    comes right after the dequeue of its own task; its URL was not in
    [visited] when the task was dequeued and is in [visited] when the call
    is made; and no URL occurs twice among the fetched URLs. *)
Theorem C2_no_url_fetched_twice (w0 : World) (o : outcome) (w : World) :
  reaches w0 o w ->
  (forall l1 l2 u d v0 v,
     log (state_of o) = l1 ++ EvFetch u d v0 v :: l2 ->
     (exists l1', l1 = l1' ++ [EvGet u d v0]) /\ (u ∉ v0) /\ u ∈ v) /\
  NoDup (fetched (log (state_of o))).
Proof.
  intros Hr. split.
  - intros l1 l2 u d v0 v Heq.
    destruct (reaches_fetches_ok w0 o w Hr l1 l2 u d v0 v Heq) as (Hget & _ & Hu & ->).
    split; [exact Hget|]. split; [exact Hu|]. set_solver.
  - apply (reaches_visited_inv w0 o w Hr).
Qed.

(** C3, amended: at every point of a traversal, each task that was dequeued
    and handed to [fetch_url] has [depth <= max_depth] and a URL that was
    not in [visited] when it was dequeued; a dequeued task that is too deep
    or already visited is discarded, so that what follows it in the log is
    not a fetch. *)
Theorem C3_fetched_tasks_within_depth (w0 : World) (o : outcome) (w : World) :
  reaches w0 o w ->
  (forall u d v0 v,
     EvFetch u d v0 v ∈ log (state_of o) ->
     EvGet u d v0 ∈ log (state_of o) /\ d <= max_depth cfg /\ (u ∉ v0)) /\
  (forall l1 l2 u d v0 e,
     log (state_of o) = l1 ++ EvGet u d v0 :: e :: l2 ->
     max_depth cfg < d \/ u ∈ v0 ->
     is_fetch e = false).
Proof.
  intros Hr. pose proof (reaches_fetches_ok w0 o w Hr) as Hok. split.
  - intros u d v0 v Hin.
    apply list_elem_of_split in Hin as (l1 & l2 & Heq).
    destruct (Hok l1 l2 u d v0 v Heq) as ([l1' ->] & Hd & Hu & _).
    split; [|done]. rewrite Heq. set_solver.
  - intros l1 l2 u d v0 e Heq Hbad.
    destruct e as [| u' d' v0' v' | | | |]; try reflexivity.
    exfalso.
    destruct (Hok (l1 ++ [EvGet u d v0]) l2 u' d' v0' v') as ([l1' Hl] & Hd & Hu & _).
    { rewrite Heq, <- app_assoc. reflexivity. }
    apply app_inj_tail in Hl as [_ Hl]. inversion Hl; subst.
    destruct Hbad; [lia|done].
Qed.


(** *** Product URLs and the queue *)

Lemma links_inv_start : links_inv (state_of_start domain).
Proof.
  unfold Crawler.links_inv, state_of_start. simpl.
  split; [|split; [|split]].
  - intros u. split; intros H; inversion H.
  - intros u. split; [intros H; inversion H|].
    intros (page & vis & H & _). inversion H.
  - intros u d H. inversion H.
  - intros u d H. apply list_elem_of_singleton in H. left. exact H.
Qed.

(** Dequeues, fetches and page entries change neither [product_urls] nor
    what the log says about links. *)
Lemma links_inv_other st q v e :
  is_link_event e = false -> q ⊆ queue st -> links_inv st ->
  links_inv (CState q v (product_urls st) (log st ++ [e])).
Proof.
  intros He Hq (H1 & H2 & H3 & H4). unfold Crawler.links_inv. simpl.
  setoid_rewrite elem_of_app. setoid_rewrite list_elem_of_singleton.
  split; [|split; [|split]].
  - intros u. rewrite H1. split; [auto|].
    intros [H|H]; [done|]. subst e. discriminate.
  - intros u. split.
    + intros [H|H]; [|subst e; discriminate].
      apply H2 in H as (page & vis & H & Hv & Hp). exists page, vis. auto.
    + intros (page & vis & [H|H] & Hv & Hp); [|subst e; discriminate].
      left. apply H2. eauto.
  - intros u d [H|H]; [eauto|subst e; discriminate].
  - intros u d H. apply Hq in H. destruct (H4 u d H); auto.
Qed.

Lemma links_inv_skip st page link vis :
  link ∈ vis \/ is_product_url link = false -> links_inv st ->
  links_inv (CState (queue st) (visited st) (product_urls st)
                    (log st ++ [EvLink page link vis])).
Proof.
  intros Hl (H1 & H2 & H3 & H4). unfold Crawler.links_inv. simpl.
  split; [|split; [|split]].
  - intros u. rewrite H1, elem_of_app, list_elem_of_singleton.
    split; [auto|]. intros [H|H]; [done|discriminate].
  - intros u. rewrite elem_of_app, list_elem_of_singleton. split.
    + intros [H|H]; [|discriminate].
      apply H2 in H as (pg & vs & H & Hv & Hp). exists pg, vs.
      rewrite elem_of_app. auto.
    + intros (pg & vs & H & Hv & Hp). left. apply H2.
      apply elem_of_app in H as [H|H]; [eauto|].
      apply list_elem_of_singleton in H. inversion H; subst.
      destruct Hl; [done|congruence].
  - intros u d H. apply elem_of_app in H as [H|H]; [eauto|].
    apply list_elem_of_singleton in H. discriminate.
  - intros u d H. rewrite elem_of_app. destruct (H4 u d H); auto.
Qed.

Lemma links_inv_add st page link vis :
  link ∉ vis -> is_product_url link = true -> links_inv st ->
  links_inv (CState (queue st) (visited st) ({[link]} ∪ product_urls st)
                    ((log st ++ [EvLink page link vis]) ++ [EvAdd link])).
Proof.
  intros Hl Hprod (H1 & H2 & H3 & H4). unfold Crawler.links_inv. simpl.
  split; [|split; [|split]].
  - intros u. rewrite elem_of_union, elem_of_singleton, H1.
    rewrite !elem_of_app, !list_elem_of_singleton. split.
    + intros [->|H]; auto.
    + intros [[H|H]|H]; [auto|discriminate|]. left. congruence.
  - intros u. rewrite !elem_of_app, !list_elem_of_singleton. split.
    + intros [[H|H]|H]; [|discriminate|].
      * apply H2 in H as (pg & vs & H & Hv & Hp). exists pg, vs.
        rewrite !elem_of_app. auto.
      * inversion H; subst. exists page, vis.
        rewrite !elem_of_app, !list_elem_of_singleton. auto.
    + intros (pg & vs & H & Hv & Hp).
      rewrite !elem_of_app, !list_elem_of_singleton in H.
      destruct H as [[H|H]|H]; [|inversion H; subst; auto|discriminate].
      left. left. apply H2. eauto.
  - intros u d H. rewrite !elem_of_app, !list_elem_of_singleton in H.
    destruct H as [[H|H]|H]; [eauto|discriminate|discriminate].
  - intros u d H. rewrite !elem_of_app. destruct (H4 u d H); auto.
Qed.

Lemma links_inv_put st link d :
  is_product_url link = false -> str_in domain link = true -> links_inv st ->
  links_inv (CState (queue st ++ [(link, d)]) (visited st) (product_urls st)
                    (log st ++ [EvPut link d])).
Proof.
  intros Hprod Hdom (H1 & H2 & H3 & H4). unfold Crawler.links_inv. simpl.
  split; [|split; [|split]].
  - intros u. rewrite H1, elem_of_app, list_elem_of_singleton.
    split; [auto|]. intros [H|H]; [done|discriminate].
  - intros u. rewrite elem_of_app, list_elem_of_singleton. split.
    + intros [H|H]; [|discriminate].
      apply H2 in H as (pg & vs & H & Hv & Hp). exists pg, vs.
      rewrite elem_of_app. auto.
    + intros (pg & vs & H & Hv & Hp). left. apply H2.
      apply elem_of_app in H as [H|H]; [eauto|].
      apply list_elem_of_singleton in H. discriminate.
  - intros u d' H. apply elem_of_app in H as [H|H]; [eauto|].
    apply list_elem_of_singleton in H. inversion H; subst. auto.
  - intros u d' H. rewrite elem_of_app, list_elem_of_singleton.
    apply elem_of_app in H as [H|H].
    + destruct (H4 u d' H); auto.
    + apply list_elem_of_singleton in H. inversion H; subst. auto.
Qed.

Lemma process_link_links_inv page depth st link :
  links_inv st -> links_inv (process_link page depth st link).
Proof.
  intros H.
  destruct (process_link_cases page depth st link)
    as [[Hv ->]|[[Hv [Hp ->]]|[[Hv [Hp [Hd ->]]]|[Hv [Hp [Hd ->]]]]]].
  - apply links_inv_skip; auto.
  - apply links_inv_add; auto.
  - apply (links_inv_put
             (CState (queue st) (visited st) (product_urls st)
                     (log st ++ [EvLink page link (visited st)]))); [done|done|].
    apply links_inv_skip; auto.
  - apply links_inv_skip; auto.
Qed.

Lemma links_inv_step st w o w' :
  links_inv st -> loop_guard st = true -> loop_body st w = (o, w') ->
  links_inv (state_of o).
Proof.
  intros H Hg Hb.
  destruct (loop_body_cases st w o w' Hg Hb) as (url & depth & rest & Hq & Hsz & Hc).
  assert (rest ⊆ queue st) as Hrest by (rewrite Hq; set_solver).
  assert (links_inv (after_get st url depth rest)) as Hget
    by (apply links_inv_other; [reflexivity|exact Hrest|exact H]).
  assert (links_inv (after_visit st url depth rest)) as Hvisit
    by (apply (links_inv_other (after_get st url depth rest)); [reflexivity|done|exact Hget]).
  destruct Hc as [(_ & -> & _)|(Hd & Hv & [(_ & ->)|[(h & e & _ & _ & ->)|(h & ls & _ & _ & ->)]])];
    simpl; try assumption.
  apply fold_process_link_ind.
  - apply (links_inv_other (after_visit st url depth rest)); [reflexivity|done|exact Hvisit].
  - intros st' link _. apply process_link_links_inv.
Qed.

Lemma reaches_links_inv w0 o w : reaches w0 o w -> links_inv (state_of o).
Proof.
  apply (reaches_inv links_inv); [apply links_inv_start|].
  eauto using links_inv_step.
Qed.


(** *** Links come from pages that were fetched and parsed *)

Lemma fetched_snoc_mono l e page : page ∈ fetched l -> page ∈ fetched (l ++ [e]).
Proof. intros H. rewrite fetched_app, elem_of_app. left. exact H. Qed.

Lemma pages_inv_other l e :
  is_page_event e = false -> pages_inv l -> pages_inv (l ++ [e]).
Proof.
  intros He [H1 H2]. split.
  - intros page u vis H. apply elem_of_app in H as [H|H].
    + destruct (H1 page u vis H) as (html & links & Hp & Hu).
      exists html, links. rewrite elem_of_app. auto.
    + apply list_elem_of_singleton in H. subst e. discriminate.
  - intros page html links H. apply elem_of_app in H as [H|H].
    + destruct (H2 page html links H) as (Hp & Hf & Hw).
      auto using fetched_snoc_mono.
    + apply list_elem_of_singleton in H. subst e. discriminate.
Qed.

Lemma pages_inv_page l page html links w w' :
  parse_links html page = Ok links -> page ∈ fetched l ->
  fetch_url w page = (w', Some html) ->
  pages_inv l -> pages_inv (l ++ [EvPage page html links]).
Proof.
  intros Hp Hf Hw [H1 H2]. split.
  - intros pg u vis H. apply elem_of_app in H as [H|H].
    + destruct (H1 pg u vis H) as (h & ls & Hpg & Hu).
      exists h, ls. rewrite elem_of_app. auto.
    + apply list_elem_of_singleton in H. discriminate.
  - intros pg h ls H. apply elem_of_app in H as [H|H].
    + destruct (H2 pg h ls H) as (Hp' & Hf' & Hw'). auto using fetched_snoc_mono.
    + apply list_elem_of_singleton in H. inversion H; subst.
      split; [exact Hp|]. split; [apply fetched_snoc_mono; exact Hf|eauto].
Qed.

Lemma pages_inv_link l page html links link vis :
  EvPage page html links ∈ l -> link ∈ links ->
  pages_inv l -> pages_inv (l ++ [EvLink page link vis]).
Proof.
  intros Hpage Hlink [H1 H2]. split.
  - intros pg u vs H. apply elem_of_app in H as [H|H].
    + destruct (H1 pg u vs H) as (h & ls & Hpg & Hu).
      exists h, ls. rewrite elem_of_app. auto.
    + apply list_elem_of_singleton in H. inversion H; subst.
      exists html, links. rewrite elem_of_app. auto.
  - intros pg h ls H. apply elem_of_app in H as [H|H].
    + destruct (H2 pg h ls H) as (Hp' & Hf' & Hw'). auto using fetched_snoc_mono.
    + apply list_elem_of_singleton in H. discriminate.
Qed.

Lemma process_link_pages_inv page html links depth st link :
  link ∈ links ->
  pages_inv (log st) /\ EvPage page html links ∈ log st ->
  pages_inv (log (process_link page depth st link)) /\
  EvPage page html links ∈ log (process_link page depth st link).
Proof.
  intros Hlink [H Hpage].
  pose proof (pages_inv_link (log st) page html links link (visited st) Hpage Hlink H) as Hl.
  destruct (process_link_cases page depth st link)
    as [[_ ->]|[[_ [_ ->]]|[[_ [_ [_ ->]]]|[_ [_ [_ ->]]]]]]; simpl;
    rewrite !elem_of_app; (split; [|auto]);
    try exact Hl; (apply pages_inv_other; [reflexivity|exact Hl]).
Qed.

Lemma pages_inv_step st w o w' :
  pages_inv (log st) -> loop_guard st = true -> loop_body st w = (o, w') ->
  pages_inv (log (state_of o)).
Proof.
  intros H Hg Hb.
  destruct (loop_body_cases st w o w' Hg Hb) as (url & depth & rest & Hq & Hsz & Hc).
  assert (pages_inv (log (after_visit st url depth rest))) as Hvisit.
  { simpl. apply pages_inv_other; [reflexivity|]. apply pages_inv_other; [reflexivity|done]. }
  destruct Hc as [(_ & -> & _)|(Hd & Hv & [(_ & ->)|[(h & e & _ & _ & ->)|(h & ls & Hf & Hp & ->)]])];
    simpl state_of; try exact Hvisit.
  - simpl. apply pages_inv_other; [reflexivity|done].
  - apply (fold_process_link_ind
             (fun st' => pages_inv (log st') /\ EvPage url h ls ∈ log st')).
    + split.
      * apply (pages_inv_page _ url h ls w w'); [exact Hp| |exact Hf|exact Hvisit].
        simpl. rewrite ?fetched_app. simpl. set_solver.
      * simpl. set_solver.
    + intros st' link Hin. apply process_link_pages_inv. exact Hin.
Qed.

Lemma reaches_pages_inv w0 o w : reaches w0 o w -> pages_inv (log (state_of o)).
Proof.
  apply (reaches_inv (fun st => pages_inv (log st))).
  - split; [intros page u vis H|intros page html links H]; inversion H.
  - eauto using pages_inv_step.
Qed.

(** *** The [for] loop leaves no link out *)

Lemma process_link_log_grows page depth st link e :
  e ∈ log st -> e ∈ log (process_link page depth st link).
Proof.
  intros H.
  destruct (process_link_cases page depth st link)
    as [[_ ->]|[[_ [_ ->]]|[[_ [_ [_ ->]]]|[_ [_ [_ ->]]]]]]; simpl;
    rewrite !elem_of_app; auto.
Qed.

Lemma process_link_logs_link page depth st link :
  EvLink page link (visited st) ∈ log (process_link page depth st link).
Proof.
  destruct (process_link_cases page depth st link)
    as [[_ ->]|[[_ [_ ->]]|[[_ [_ [_ ->]]]|[_ [_ [_ ->]]]]]]; simpl;
    rewrite !elem_of_app, !list_elem_of_singleton; auto.
Qed.

Lemma fold_process_link_log_grows page depth links st e :
  e ∈ log st -> e ∈ log (fold_left (process_link page depth) links st).
Proof.
  intros H. apply (fold_process_link_ind (fun st' => e ∈ log st')); [exact H|].
  intros st' link _. apply process_link_log_grows.
Qed.

Lemma fold_process_link_logs_links page depth links st u :
  u ∈ links ->
  exists vis, EvLink page u vis ∈ log (fold_left (process_link page depth) links st).
Proof.
  revert st. induction links as [|l links IH]; intros st Hu; [inversion Hu|].
  simpl. apply elem_of_cons in Hu as [->|Hu]; [|apply IH; exact Hu].
  exists (visited st). apply fold_process_link_log_grows, process_link_logs_link.
Qed.

Lemma links_done_snoc l e :
  is_page_event e = false -> links_done l -> links_done (l ++ [e]).
Proof.
  intros He H page html links u Hp Hu.
  apply elem_of_app in Hp as [Hp|Hp].
  - destruct (H page html links u Hp Hu) as [vis Hl]. exists vis.
    rewrite elem_of_app. auto.
  - apply list_elem_of_singleton in Hp. subst e. discriminate.
Qed.

Lemma links_done_step st w o w' :
  links_done (log st) -> loop_guard st = true -> loop_body st w = (o, w') ->
  links_done (log (state_of o)).
Proof.
  intros H Hg Hb.
  destruct (loop_body_cases st w o w' Hg Hb) as (url & depth & rest & Hq & Hsz & Hc).
  assert (links_done (log (after_visit st url depth rest))) as Hvisit.
  { simpl. apply links_done_snoc; [reflexivity|]. apply links_done_snoc; [reflexivity|done]. }
  destruct Hc as [(_ & -> & _)|(Hd & Hv & [(_ & ->)|[(h & e & _ & _ & ->)|(h & ls & Hf & Hp & ->)]])];
    simpl state_of; try exact Hvisit.
  - simpl. apply links_done_snoc; [reflexivity|done].
  - intros page html links u Hpage Hu.
    destruct (decide ((page, html, links) = (url, h, ls))) as [Heq|Hne].
    + inversion Heq; subst. apply fold_process_link_logs_links. exact Hu.
    + assert (EvPage page html links ∈ log (after_visit st url depth rest)) as Hold.
      { revert Hpage. apply (fold_process_link_ind
          (fun st' => EvPage page html links ∈ log st' ->
                      EvPage page html links ∈ log (after_visit st url depth rest))).
        - simpl. rewrite !elem_of_app, !list_elem_of_singleton.
          intros [H'|H']; [exact H'|congruence].
        - intros st' link _ IH Hin. apply IH.
          destruct (process_link_cases url depth st' link)
            as [[_ Hst]|[[_ [_ Hst]]|[[_ [_ [_ Hst]]]|[_ [_ [_ Hst]]]]]];
            rewrite Hst in Hin; simpl in Hin;
            rewrite !elem_of_app, !list_elem_of_singleton in Hin;
            destruct_or?; try done; discriminate. }
      destruct (Hvisit page html links u Hold Hu) as [vis Hl]. exists vis.
      apply fold_process_link_log_grows. simpl. rewrite elem_of_app. left. exact Hl.
Qed.

Lemma reaches_links_done w0 o w : reaches w0 o w -> links_done (log (state_of o)).
Proof.
  apply (reaches_inv (fun st => links_done (log st))).
  - intros page html links u H. inversion H.
  - eauto using links_done_step.
Qed.

(** *** Links come from pages that this crawl fetched with success *)

Local Abbreviation fetched_page :=
  (Crawler.fetched_page World session_get parse_links cfg domain).
Local Abbreviation pages_fetched :=
  (Crawler.pages_fetched World session_get parse_links cfg domain).

(** Induction over the points of a traversal, with the fact that the point
    an iteration starts from is itself a point of the traversal. *)
Lemma reaches_ind_r (w0 : World) (P : outcome -> World -> Prop) :
  P (Normal (state_of_start domain)) w0 ->
  (forall st w o w',
     reaches w0 (Normal st) w -> P (Normal st) w ->
     loop_guard st = true -> loop_body st w = (o, w') -> P o w') ->
  forall o w, reaches w0 o w -> P o w.
Proof.
  intros H0 Hstep o w Hr.
  assert (forall c, rtc iter (Normal (state_of_start domain), w0) c -> P c.1 c.2)
    as Hall.
  { apply (rtc_ind_r (fun c => P c.1 c.2)); [exact H0|].
    intros c1 c2 H1 H12 IH. destruct H12 as [st w1 o' w' Hg Hb]. simpl in *.
    apply (Hstep st w1 o' w' H1 IH Hg Hb). }
  apply (Hall (o, w) Hr).
Qed.

Lemma pages_fetched_other w0 l e :
  is_page_event e = false -> pages_fetched w0 l -> pages_fetched w0 (l ++ [e]).
Proof.
  intros He [H1 H2]. split.
  - intros page html links H. apply elem_of_app in H as [H|H]; [eauto|].
    apply list_elem_of_singleton in H. subst e. discriminate.
  - intros page u vis H. apply elem_of_app in H as [H|H].
    + destruct (H2 page u vis H) as (html & links & Hp & Hf & Hu).
      exists html, links. rewrite elem_of_app. auto.
    + apply list_elem_of_singleton in H. subst e. discriminate.
Qed.

Lemma pages_fetched_page w0 l page html links vis :
  fetched_page w0 page html links vis ->
  pages_fetched w0 l -> pages_fetched w0 (l ++ [EvPage page html links]).
Proof.
  intros Hf [H1 H2]. split.
  - intros pg h ls H. apply elem_of_app in H as [H|H]; [eauto|].
    apply list_elem_of_singleton in H. inversion H; subst. eauto.
  - intros pg u vs H. apply elem_of_app in H as [H|H].
    + destruct (H2 pg u vs H) as (h & ls & Hp & Hfp & Hu).
      exists h, ls. rewrite elem_of_app. auto.
    + apply list_elem_of_singleton in H. discriminate.
Qed.

Lemma pages_fetched_link w0 l page html links vis u :
  EvPage page html links ∈ l -> fetched_page w0 page html links vis -> u ∈ links ->
  pages_fetched w0 l -> pages_fetched w0 (l ++ [EvLink page u vis]).
Proof.
  intros Hp Hf Hu [H1 H2]. split.
  - intros pg h ls H. apply elem_of_app in H as [H|H]; [eauto|].
    apply list_elem_of_singleton in H. discriminate.
  - intros pg u' vs H. apply elem_of_app in H as [H|H].
    + destruct (H2 pg u' vs H) as (h & ls & Hp' & Hfp & Hu').
      exists h, ls. rewrite elem_of_app. auto.
    + apply list_elem_of_singleton in H. inversion H; subst.
      exists html, links. rewrite elem_of_app. auto.
Qed.

Lemma process_link_pages_fetched w0 page html links vis depth st link :
  fetched_page w0 page html links vis -> link ∈ links ->
  pages_fetched w0 (log st) /\ EvPage page html links ∈ log st /\ visited st = vis ->
  pages_fetched w0 (log (process_link page depth st link)) /\
  EvPage page html links ∈ log (process_link page depth st link) /\
  visited (process_link page depth st link) = vis.
Proof.
  intros Hf Hlink (H & Hpage & Hvis).
  pose proof (pages_fetched_link w0 (log st) page html links vis link Hpage Hf Hlink H)
    as Hl.
  rewrite process_link_visited.
  split; [|split; [apply process_link_log_grows; exact Hpage|exact Hvis]].
  destruct (process_link_cases page depth st link)
    as [[_ ->]|[[_ [_ ->]]|[[_ [_ [_ ->]]]|[_ [_ [_ ->]]]]]]; simpl; rewrite Hvis;
    try exact Hl; (apply pages_fetched_other; [reflexivity|exact Hl]).
Qed.

Lemma reaches_pages_fetched w0 o w :
  reaches w0 o w -> pages_fetched w0 (log (state_of o)).
Proof.
  revert o w. apply (reaches_ind_r w0 (fun o _ => pages_fetched w0 (log (state_of o)))).
  - split; [intros page html links H|intros page u vis H]; inversion H.
  - intros st w o w' Hr H Hg Hb. simpl in H.
    destruct (loop_body_cases st w o w' Hg Hb) as (url & depth & rest & Hq & Hsz & Hc).
    assert (pages_fetched w0 (log (after_visit st url depth rest))) as Hvisit.
    { simpl. apply pages_fetched_other; [reflexivity|].
      apply pages_fetched_other; [reflexivity|exact H]. }
    destruct Hc as [(_ & -> & _)|(Hd & Hv & [(_ & ->)|[(h & e & _ & _ & ->)|(h & ls & Hf & Hp & ->)]])];
      simpl state_of; try exact Hvisit.
    + simpl. apply pages_fetched_other; [reflexivity|exact H].
    + assert (fetched_page w0 url h ls ({[url]} ∪ visited st)) as Hfp.
      { exists st, w, w', depth, rest. auto 10. }
      apply (fold_process_link_ind
               (fun st' => pages_fetched w0 (log st') /\
                           EvPage url h ls ∈ log st' /\
                           visited st' = {[url]} ∪ visited st)).
      * split; [|split; [simpl; set_solver|reflexivity]].
        apply (pages_fetched_page w0 _ url h ls _ Hfp). exact Hvisit.
      * intros st' link Hin. apply process_link_pages_fetched; assumption.
Qed.


Lemma str_in_root : str_in domain root = true.
Proof. apply str_in_spec. exists "https://", "". now rewrite append_nil_r. Qed.

(** C6: at every point of a traversal, a link put on the queue is not a
    product URL and contains the domain name; so does every task in the
    queue, the start task [(root, 0)] apart, which was not put there as a
    link; and no URL is both recorded as a product and enqueued as a link. *)
Theorem C6_products_never_enqueued (w0 : World) (o : outcome) (w : World) :
  reaches w0 o w ->
  (forall u d, EvPut u d ∈ log (state_of o) ->
     is_product_url u = false /\ str_in domain u = true) /\
  (forall u d, (u, d) ∈ queue (state_of o) ->
     str_in domain u = true /\ ((u, d) = (root, 0) \/ is_product_url u = false)) /\
  (forall u, u ∈ product_urls (state_of o) ->
     is_product_url u = true /\ forall d, EvPut u d ∉ log (state_of o)) /\
  (forall u d, EvPut u d ∈ log (state_of o) -> u ∉ product_urls (state_of o)).
Proof.
  intros Hr. destruct (reaches_links_inv w0 o w Hr) as (H1 & H2 & H3 & H4).
  assert (forall u, u ∈ product_urls (state_of o) -> is_product_url u = true) as Hprod.
  { intros u Hu. apply H1, H2 in Hu as (_ & _ & _ & _ & Hp). exact Hp. }
  split; [exact H3|]. split; [|split].
  - intros u d Hin. destruct (H4 u d Hin) as [Heq|Hput].
    + inversion Heq; subst. split; [apply str_in_root|left; reflexivity].
    + destruct (H3 u d Hput). auto.
  - intros u Hu. split; [auto|]. intros d Hput.
    destruct (H3 u d Hput) as [Hnp _]. rewrite (Hprod u Hu) in Hnp. discriminate.
  - intros u d Hput Hu. destruct (H3 u d Hput) as [Hnp _].
    rewrite (Hprod u Hu) in Hnp. discriminate.
Qed.


(** *** Running the loop *)

Lemma loop_body_discard st w url depth rest :
  queue st = (url, depth) :: rest ->
  max_depth cfg < depth \/ url ∈ visited st ->
  loop_body st w = (Normal (after_get st url depth rest), w).
Proof.
  intros Hq Hbad. unfold Crawler.loop_body. rewrite Hq.
  destruct Hbad as [Hd|Hv].
  - apply Z.gtb_lt in Hd. rewrite Hd. reflexivity.
  - rewrite (bool_decide_eq_true_2 _ Hv), orb_true_r. reflexivity.
Qed.

Lemma loop_body_enter st url depth :
  depth <= max_depth cfg -> url ∉ visited st ->
  (depth >? max_depth cfg) || bool_decide (url ∈ visited st) = false.
Proof.
  intros Hd Hv. rewrite (bool_decide_eq_false_2 _ Hv), orb_false_r.
  destruct (Z.gtb_spec depth (max_depth cfg)); [lia|reflexivity].
Qed.

Lemma loop_body_fetch_none st w url depth rest w' :
  queue st = (url, depth) :: rest ->
  depth <= max_depth cfg -> url ∉ visited st ->
  fetch_url w url = (w', None) ->
  loop_body st w = (Normal (after_visit st url depth rest), w').
Proof.
  intros Hq Hd Hv Hf. unfold Crawler.loop_body.
  rewrite Hq, (loop_body_enter st url depth Hd Hv), Hf. reflexivity.
Qed.

Lemma loop_body_fetch_links st w url depth rest w' html links :
  queue st = (url, depth) :: rest ->
  depth <= max_depth cfg -> url ∉ visited st ->
  fetch_url w url = (w', Some html) ->
  parse_links html url = Ok links ->
  loop_body st w =
    (Normal (fold_left (process_link url depth) links
               (note (EvPage url html links) (after_visit st url depth rest))), w').
Proof.
  intros Hq Hd Hv Hf Hp. unfold Crawler.loop_body.
  rewrite Hq, (loop_body_enter st url depth Hd Hv), Hf, Hp. reflexivity.
Qed.

Lemma while_loop_exit fuel st w :
  loop_guard st = false -> while_loop (S fuel) domain st w = Some (Normal st, w).
Proof. intros Hg. simpl. rewrite Hg. reflexivity. Qed.

Lemma while_loop_continue fuel st w st' w' :
  loop_guard st = true -> loop_body st w = (Normal st', w') ->
  while_loop (S fuel) domain st w = while_loop fuel domain st' w'.
Proof. intros Hg Hb. simpl. rewrite Hg, Hb. reflexivity. Qed.

Lemma while_loop_raise fuel st w e st' w' :
  loop_guard st = true -> loop_body st w = (Raised e st', w') ->
  while_loop (S fuel) domain st w = Some (Raised e st', w').
Proof. intros Hg Hb. simpl. rewrite Hg, Hb. reflexivity. Qed.

(** More fuel does not change a result. *)
Lemma while_loop_more_fuel fuel fuel' st w r :
  while_loop fuel domain st w = Some r -> (fuel <= fuel')%nat ->
  while_loop fuel' domain st w = Some r.
Proof.
  revert fuel' st w. induction fuel as [|fuel IH]; intros fuel' st w H Hle;
    [discriminate|].
  destruct fuel' as [|fuel']; [lia|]. simpl in *.
  destruct (loop_guard st); [|exact H].
  destruct (loop_body st w) as [[st1|e st1] w1]; [|exact H].
  apply IH; [exact H|lia].
Qed.

Lemma size_visit url (v : gset string) : url ∉ v -> size ({[url]} ∪ v) = S (size v).
Proof.
  intros Hv. rewrite size_union by set_solver. rewrite size_singleton. reflexivity.
Qed.

(** The loop ends from every state: an iteration either drops a task and
    leaves [visited] alone, or uses up one page of the budget. *)
Lemma while_loop_terminates_from n :
  forall st w, (budget_left st <= n)%nat ->
    exists fuel o w', while_loop fuel domain st w = Some (o, w').
Proof.
  induction n as [|n IHn]; intros st w Hn.
  - exists 1%nat, (Normal st), w. apply while_loop_exit.
    unfold Crawler.loop_guard. unfold Crawler.budget_left in Hn.
    destruct (Z.ltb_spec (Z.of_nat (size (visited st))) (max_pages cfg));
      [lia|apply andb_false_r].
  - remember (queue st) as q eqn:Hq. revert st w Hn Hq.
    induction q as [|[url depth] rest IHq]; intros st w Hn Hq.
    + exists 1%nat, (Normal st), w. apply while_loop_exit.
      unfold Crawler.loop_guard. rewrite <- Hq. reflexivity.
    + destruct (loop_guard st) eqn:Hg;
        [|exists 1%nat, (Normal st), w; apply while_loop_exit; exact Hg].
      destruct (loop_body st w) as [o w1] eqn:Hb.
      destruct (loop_body_cases st w o w1 Hg Hb) as (url' & depth' & rest' & Hq' & Hsz & Hc).
      rewrite <- Hq in Hq'. inversion Hq'; subst url' depth' rest'. clear Hq'.
      assert (forall st', visited st' = {[url]} ∪ visited st -> url ∉ visited st ->
                forall w', exists fuel o' w'', while_loop fuel domain st' w' = Some (o', w''))
        as Hnext.
      { intros st' Hst' Hv w'. apply IHn. unfold Crawler.budget_left in *.
        rewrite Hst', size_visit by exact Hv. lia. }
      destruct Hc as [(_ & -> & ->)|(Hd & Hv & [(_ & ->)|[(h & e & _ & _ & ->)|(h & ls & _ & _ & ->)]])].
      * destruct (IHq (after_get st url depth rest) w) as (fuel & o' & w' & Hrun);
          [exact Hn|reflexivity|].
        exists (S fuel), o', w'. rewrite (while_loop_continue _ _ _ _ _ Hg Hb). exact Hrun.
      * destruct (Hnext (after_visit st url depth rest) eq_refl Hv w1) as (fuel & o' & w' & Hrun).
        exists (S fuel), o', w'. rewrite (while_loop_continue _ _ _ _ _ Hg Hb). exact Hrun.
      * exists 1%nat, (Raised e (after_visit st url depth rest)), w1.
        apply (while_loop_raise _ _ _ _ _ _ Hg Hb).
      * edestruct (Hnext (fold_left (process_link url depth) ls
                            (note (EvPage url h ls) (after_visit st url depth rest))))
          as (fuel & o' & w' & Hrun);
          [apply fold_process_link_visited|exact Hv|].
        exists (S fuel), o', w'. rewrite (while_loop_continue _ _ _ _ _ Hg Hb). exact Hrun.
Qed.

Lemma while_loop_terminates st w :
  exists fuel o w', while_loop fuel domain st w = Some (o, w').
Proof. apply (while_loop_terminates_from (budget_left st)). lia. Qed.

(** The loop only ends in an exception that [parse_links] raised. *)
Lemma while_loop_raised fuel st w e st' w' :
  while_loop fuel domain st w = Some (Raised e st', w') ->
  exists html url, parse_links html url = Raise e.
Proof.
  revert st w. induction fuel as [|fuel IH]; intros st w H; [discriminate|].
  simpl in H. destruct (loop_guard st) eqn:Hg; [|discriminate].
  destruct (loop_body st w) as [[st1|e1 st1] w1] eqn:Hb; [eauto|].
  inversion H; subst.
  destruct (loop_body_cases st w _ _ Hg Hb) as (url & depth & rest & _ & _ & Hc).
  destruct Hc as [(_ & Ho & _)|(_ & _ & [(_ & Ho)|[(h & e1 & _ & Hp & Ho)|(h & ls & _ & _ & Ho)]])];
    try discriminate.
  inversion Ho; subst. eauto.
Qed.

(** Where the exception comes from: an iteration at a point of the run
    fetched a page with success and [parse_links] raised on that page. *)
Lemma while_loop_raised_at fuel st0 w0 e st' w' :
  while_loop fuel domain st0 w0 = Some (Raised e st', w') ->
  exists st w page depth rest w1 html,
    rtc iter (Normal st0, w0) (Normal st, w) /\
    loop_guard st = true /\
    queue st = (page, depth) :: rest /\
    depth <= max_depth cfg /\
    (page ∉ visited st) /\
    fetch_url w page = (w1, Some html) /\
    parse_links html page = Raise e.
Proof.
  revert st0 w0. induction fuel as [|fuel IH]; intros st0 w0 H; [discriminate|].
  simpl in H. destruct (loop_guard st0) eqn:Hg; [|discriminate].
  destruct (loop_body st0 w0) as [[st1|e1 st1] w1] eqn:Hb.
  - destruct (IH st1 w1 H) as (st & w & page & depth & rest & w2 & html & Hrtc & Hrest).
    exists st, w, page, depth, rest, w2, html. split; [|exact Hrest].
    eapply rtc_l; [apply (iter_intro _ _ _ _ _ _ _ _ _ Hg Hb)|exact Hrtc].
  - inversion H; subst.
    destruct (loop_body_cases st0 w0 _ _ Hg Hb) as (url & depth & rest & Hq & _ & Hc).
    destruct Hc as [(_ & Ho & _)|(Hd & Hv & [(_ & Ho)|[(h & e1 & Hf & Hp & Ho)|(h & ls & _ & _ & Ho)]])];
      try discriminate.
    inversion Ho; subst.
    exists st0, w0, url, depth, rest, w', h. split; [apply rtc_refl|auto 10].
Qed.

(** C7: for [max_depth >= 0] and [max_pages > 0], whatever the network
    answers, and with a link extractor that returns a (finite) list of links
    for every page this crawl fetches (on any other input it may raise), the
    loop of [crawl_domain] ends after finitely many iterations and the
    method returns: some amount of fuel, and every larger one, gives one and
    the same final state, reached without an exception. *)
Theorem C7_crawl_domain_terminates (w0 : World) :
  0 <= max_depth cfg ->
  0 < max_pages cfg ->
  (forall st w page depth rest w' html,
     reaches w0 (Normal st) w ->
     loop_guard st = true ->
     queue st = (page, depth) :: rest ->
     depth <= max_depth cfg ->
     page ∉ visited st ->
     fetch_url w page = (w', Some html) ->
     exists links, parse_links html page = Ok links) ->
  exists fuel st w,
    forall fuel', (fuel <= fuel')%nat ->
      crawl_domain fuel' domain w0 = Some (Normal st, w).
Proof.
  intros _ _ Hparse.
  destruct (while_loop_terminates (state_of_start domain) w0) as (fuel & o & w & Hrun).
  destruct o as [st|e st].
  - exists fuel, st, w. intros fuel' Hle.
    apply (while_loop_more_fuel fuel fuel' _ _ _ Hrun Hle).
  - exfalso.
    destruct (while_loop_raised_at _ _ _ _ _ _ Hrun)
      as (st1 & w1 & page & depth & rest & w2 & html & Hr & Hg & Hq & Hd & Hv & Hf & Hraise).
    destruct (Hparse st1 w1 page depth rest w2 html Hr Hg Hq Hd Hv Hf) as [links Hok].
    congruence.
Qed.

(** *** Fetch failures *)

Lemma fetch_url_failure w url w' r :
  session_get w url = (w', r) -> fetch_failure r -> fetch_url w url = (w', None).
Proof.
  intros Hget Hfail. unfold Crawler.fetch_url. rewrite Hget.
  destruct r as [resp|e]; simpl; [|reflexivity].
  simpl in Hfail.
  destruct (Z.eqb_spec (status resp) 200) as [Heq|_]; [lia|reflexivity].
Qed.

Lemma fetch_url_ok w url w' body :
  session_get w url = (w', Ok (Response 200 (Ok body))) ->
  fetch_url w url = (w', Some body).
Proof. intros Hget. unfold Crawler.fetch_url. rewrite Hget. reflexivity. Qed.

Lemma loop_guard_start : 0 < max_pages cfg -> loop_guard (state_of_start domain) = true.
Proof.
  intros Hp. apply loop_guard_true. split; [discriminate|].
  change (Z.of_nat (size (∅ : gset string)) < max_pages cfg).
  rewrite size_empty. exact Hp.
Qed.

Lemma loop_guard_empty st : queue st = [] -> loop_guard st = false.
Proof. intros Hq. unfold Crawler.loop_guard. rewrite Hq. reflexivity. Qed.


(** *** The scenario with [max_depth = 0] *)

Lemma process_link_add page depth st link :
  link ∉ visited st -> is_product_url link = true ->
  process_link page depth st link =
    CState (queue st) (visited st) ({[link]} ∪ product_urls st)
           ((log st ++ [EvLink page link (visited st)]) ++ [EvAdd link]).
Proof.
  intros Hv Hp. unfold Crawler.process_link, note. simpl.
  rewrite (bool_decide_eq_false_2 _ Hv), Hp. reflexivity.
Qed.

Lemma process_link_put page depth st link :
  link ∉ visited st -> is_product_url link = false -> str_in domain link = true ->
  process_link page depth st link =
    CState (queue st ++ [(link, depth + 1)]) (visited st) (product_urls st)
           ((log st ++ [EvLink page link (visited st)]) ++ [EvPut link (depth + 1)]).
Proof.
  intros Hv Hp Hd. unfold Crawler.process_link, note. simpl.
  rewrite (bool_decide_eq_false_2 _ Hv), Hp, Hd. reflexivity.
Qed.

(** With [max_depth = 0], a queue that holds one task of depth 1 is emptied
    without a fetch. *)
Lemma while_loop_discard_last st w a :
  max_depth cfg = 0 -> queue st = [(a, 1)] ->
  exists st',
    (forall fuel, (2 <= fuel)%nat -> while_loop fuel domain st w = Some (Normal st', w)) /\
    visited st' = visited st /\ product_urls st' = product_urls st /\
    fetched (log st') = fetched (log st).
Proof.
  intros Hd Hq. destruct (loop_guard st) eqn:Hg.
  - exists (after_get st a 1 []). split; [|split; [reflexivity|split; [reflexivity|]]].
    + intros fuel Hfuel. destruct fuel as [|[|fuel]]; [lia|lia|].
      rewrite (while_loop_continue _ _ _ (after_get st a 1 []) w Hg).
      * apply while_loop_exit. apply loop_guard_empty. reflexivity.
      * apply loop_body_discard; [exact Hq|left; lia].
    + unfold after_get. cbn [log]. rewrite fetched_app. apply app_nil_r.
  - exists st. split; [|done].
    intros fuel Hfuel. destruct fuel as [|fuel]; [lia|].
    apply while_loop_exit. exact Hg.
Qed.

(** C9: [max_depth = 0], the root is fetched with success and its page has
    exactly two links (in either order): [p], which matches [/product/42],
    and [a], which is not a product link and contains the domain name. Then
    [crawl_domain] returns with [product_urls = {p}] and [visited = {root}],
    and the root is the only URL that was fetched. *)
Theorem C9_depth_zero_scenario (w0 w1 : World) (body p a : string) :
  max_depth cfg = 0 ->
  0 < max_pages cfg ->
  session_get w0 root = (w1, Ok (Response 200 (Ok body))) ->
  parse_links body root = Ok [p; a] \/ parse_links body root = Ok [a; p] ->
  str_in "/product/42" p = true -> p <> root ->
  is_product_url a = false -> str_in domain a = true -> a <> root ->
  exists st,
    (forall fuel, (3 <= fuel)%nat ->
       crawl_domain fuel domain w0 = Some (Normal st, w1)) /\
    product_urls st = {[p]} /\
    visited st = {[root]} /\
    fetched (log st) = [root].
Proof.
  intros Hd Hp Hget Hlinks Hpm Hpr Ha Had Har.
  assert (is_product_url p = true) as Hprod.
  { apply (is_product_url_contains "/product/" "/product/42" p); [set_solver|reflexivity|exact Hpm]. }
  pose proof (fetch_url_ok w0 root w1 body Hget) as Hf.
  set (st0 := state_of_start domain).
  set (st2 := note (EvPage root body [p; a]) (after_visit st0 root 0 [])).
  set (st2' := note (EvPage root body [a; p]) (after_visit st0 root 0 [])).
  assert (exists st1,
            loop_body st0 w0 = (Normal st1, w1) /\ queue st1 = [(a, 1)] /\
            visited st1 = {[root]} /\ product_urls st1 = {[p]} /\
            fetched (log st1) = [root]) as (st1 & Hb & Hq1 & Hv1 & Hp1 & Hf1).
  { destruct Hlinks as [Hl|Hl].
    - eexists. split.
      + apply (loop_body_fetch_links st0 w0 root 0 [] w1 body [p; a]);
          [reflexivity|lia|set_solver|exact Hf|exact Hl].
      + simpl fold_left. fold st2.
        rewrite (process_link_add root 0 st2 p) by (simpl; set_solver || exact Hprod).
        rewrite process_link_put by (simpl; set_solver || assumption).
        simpl. rewrite ?fetched_app. simpl.
        split; [reflexivity|]. split; [apply union_empty_r_L|].
        split; [apply union_empty_r_L|reflexivity].
    - eexists. split.
      + apply (loop_body_fetch_links st0 w0 root 0 [] w1 body [a; p]);
          [reflexivity|lia|set_solver|exact Hf|exact Hl].
      + simpl fold_left. fold st2'.
        rewrite (process_link_put root 0 st2' a) by (simpl; set_solver || assumption).
        rewrite process_link_add by (simpl; set_solver || exact Hprod).
        simpl. rewrite ?fetched_app. simpl.
        split; [reflexivity|]. split; [apply union_empty_r_L|].
        split; [apply union_empty_r_L|reflexivity]. }
  destruct (while_loop_discard_last st1 w1 a Hd Hq1) as (st & Hrun & Hv & Hpu & Hfe).
  exists st. split; [|split; [congruence|split; congruence]].
  intros fuel Hfuel. destruct fuel as [|fuel]; [lia|].
  unfold Crawler.crawl_domain. fold st0.
  rewrite (while_loop_continue _ st0 w0 st1 w1 (loop_guard_start Hp) Hb).
  apply Hrun. lia.
Qed.


(** *** Further properties of [fetch_url] and of the loop *)

(** X1: [fetch_url] returns a body exactly when the status is 200 and reading
    the text succeeded: any other status (204 or 301 as much as 404), and
    any exception, gives [None]. *)
Theorem fetch_url_some_iff (w : World) (url body : string) :
  (fetch_url w url).2 = Some body <->
  exists resp,
    (session_get w url).2 = Ok resp /\ status resp = 200 /\ text resp = Ok body.
Proof.
  unfold Crawler.fetch_url. destruct (session_get w url) as [w' r]. simpl.
  destruct r as [resp|e]; simpl.
  - destruct (Z.eqb_spec (status resp) 200) as [Hs|Hs].
    + destruct (text resp) as [b|e] eqn:Ht; split.
      * intros H. inversion H; subst. exists resp. auto.
      * intros (resp' & Hr & _ & Hb). inversion Hr; subst. congruence.
      * discriminate.
      * intros (resp' & Hr & _ & Hb). inversion Hr; subst. congruence.
    + split; [discriminate|].
      intros (resp' & Hr & Hs' & _). inversion Hr; subst. contradiction.
  - split; [discriminate|]. intros (resp & Hr & _). discriminate.
Qed.

(** [fetch_url] makes exactly the one request [session.get(url)]. *)
Lemma fetch_url_world (w : World) (url : string) :
  (fetch_url w url).1 = (session_get w url).1.
Proof. unfold Crawler.fetch_url. destruct (session_get w url). reflexivity. Qed.

(** X3: The [for] loop in closed form: [visited] is left alone, the unvisited
    product links are added to [product_urls], and the unvisited links that
    are no product links and contain the domain name are appended to the
    queue, in the order of the loop, all with [depth + 1]. *)
Theorem for_loop_closed_form (page : string) (depth : Z) (links : list string)
    (st : cstate) :
  visited (fold_left (process_link page depth) links st) = visited st /\
  product_urls (fold_left (process_link page depth) links st) =
    product_urls st ∪
    list_to_set (List.filter
                   (fun l => negb (bool_decide (l ∈ visited st)) && is_product_url l)
                   links) /\
  queue (fold_left (process_link page depth) links st) =
    queue st ++
    map (fun l => (l, depth + 1))
        (List.filter
           (fun l => negb (bool_decide (l ∈ visited st)) &&
                     negb (is_product_url l) && str_in domain l)
           links).
Proof.
  split; [apply fold_process_link_visited|].
  revert st. induction links as [|l links IH]; intros st; simpl fold_left.
  - simpl. split; [set_solver|]. rewrite app_nil_r. reflexivity.
  - destruct (IH (process_link page depth st l)) as [IHp IHq].
    rewrite IHp, IHq, process_link_visited. clear IHp IHq. simpl List.filter.
    destruct (process_link_cases page depth st l)
      as [[Hv ->]|[[Hv [Hp ->]]|[[Hv [Hp [Hd ->]]]|[Hv [Hp [Hd ->]]]]]]; simpl.
    + rewrite (bool_decide_eq_true_2 _ Hv). simpl. done.
    + rewrite (bool_decide_eq_false_2 _ Hv), Hp. simpl. split; [set_solver|done].
    + rewrite (bool_decide_eq_false_2 _ Hv), Hp, Hd. simpl.
      split; [done|]. rewrite <- app_assoc. reflexivity.
    + rewrite (bool_decide_eq_false_2 _ Hv), Hp, Hd. simpl. done.
Qed.

Lemma fold_process_link_fetched page depth links st :
  fetched (log (fold_left (process_link page depth) links st)) = fetched (log st).
Proof.
  apply (fold_process_link_ind (fun st' => fetched (log st') = fetched (log st)));
    [reflexivity|].
  intros st' link _ H. rewrite process_link_fetched. exact H.
Qed.

(** X4: With a page budget of zero or less the loop is never entered:
    [crawl_domain] returns at once with no product URL, without a request,
    the start task still in the queue. *)
Theorem crawl_domain_no_budget (w : World) (fuel : nat) :
  max_pages cfg <= 0 ->
  crawl_domain (S fuel) domain w = Some (Normal (state_of_start domain), w).
Proof.
  intros Hp. apply while_loop_exit. unfold Crawler.loop_guard.
  change (visited (state_of_start domain)) with (∅ : gset string).
  rewrite size_empty.
  destruct (Z.ltb_spec (Z.of_nat 0) (max_pages cfg)); [lia|apply andb_false_r].
Qed.

(** X5: With a negative [max_depth] the start task is dequeued and discarded:
    [crawl_domain] returns with nothing visited, nothing recorded and no
    request made. *)
Theorem crawl_domain_negative_depth (w : World) (fuel : nat) :
  max_depth cfg < 0 -> 0 < max_pages cfg -> (2 <= fuel)%nat ->
  crawl_domain fuel domain w =
    Some (Normal (after_get (state_of_start domain) root 0 []), w).
Proof.
  intros Hd Hp Hfuel. destruct fuel as [|[|fuel]]; [lia|lia|].
  unfold Crawler.crawl_domain.
  rewrite (while_loop_continue _ _ _ (after_get (state_of_start domain) root 0 []) w).
  - apply while_loop_exit. apply loop_guard_empty. reflexivity.
  - apply loop_guard_start. exact Hp.
  - apply loop_body_discard; [reflexivity|left; exact Hd].
Qed.

(** X6: With [max_pages = 1] (and [max_depth >= 0]) the crawl is one iteration
    of the loop: the root is fetched and nothing else, whatever the root
    page links to. *)
Theorem crawl_domain_single_page (w : World) (fuel : nat) :
  max_pages cfg = 1 -> 0 <= max_depth cfg -> (2 <= fuel)%nat ->
  crawl_domain fuel domain w = Some (loop_body (state_of_start domain) w) /\
  fetched (log (state_of (loop_body (state_of_start domain) w).1)) = [root] /\
  visited (state_of (loop_body (state_of_start domain) w).1) = {[root]}.
Proof.
  intros Hp Hd Hfuel.
  assert (loop_guard (state_of_start domain) = true) as Hg
    by (apply loop_guard_start; lia).
  destruct (loop_body (state_of_start domain) w) as [o w1] eqn:Hb.
  destruct (loop_body_cases _ _ _ _ Hg Hb) as (url & depth & rest & Hq & Hsz & Hc).
  inversion Hq; subst url depth rest. clear Hq.
  assert (fetched (log (state_of o)) = [root] /\ visited (state_of o) = {[root]})
    as [Hf Hv].
  { destruct Hc as [([Hbad|Hbad] & _)|(_ & _ & [(_ & ->)|[(h & e & _ & _ & ->)|(h & ls & _ & _ & ->)]])];
      [lia|set_solver| | |].
    - split; [reflexivity|apply union_empty_r_L].
    - split; [reflexivity|apply union_empty_r_L].
    - simpl state_of. rewrite fold_process_link_fetched, fold_process_link_visited.
      split; [reflexivity|apply union_empty_r_L]. }
  split; [|split; assumption].
  destruct fuel as [|[|fuel]]; [lia|lia|]. unfold Crawler.crawl_domain.
  destruct o as [st1|e st1].
  - rewrite (while_loop_continue _ _ _ st1 w1 Hg Hb). apply while_loop_exit.
    unfold Crawler.loop_guard. simpl in Hv. rewrite Hv, size_singleton, Hp.
    apply andb_false_r.
  - apply (while_loop_raise _ _ _ _ _ _ Hg Hb).
Qed.

(** One iteration removes nothing from [product_urls]. *)
Lemma product_urls_step st w o w' :
  loop_guard st = true -> loop_body st w = (o, w') ->
  product_urls st ⊆ product_urls (state_of o).
Proof.
  intros Hg Hb.
  destruct (loop_body_cases st w o w' Hg Hb) as (url & depth & rest & Hq & Hsz & Hc).
  destruct Hc as [(_ & -> & _)|(Hd & Hv & [(_ & ->)|[(h & e & _ & _ & ->)|(h & ls & _ & _ & ->)]])];
    simpl; try done.
  destruct (for_loop_closed_form url depth ls
              (note (EvPage url h ls) (after_visit st url depth rest))) as (_ & -> & _).
  simpl. set_solver.
Qed.

Lemma product_urls_rtc (c c' : outcome * World) :
  rtc iter c c' -> product_urls (state_of c.1) ⊆ product_urls (state_of c'.1).
Proof.
  induction 1 as [c|c1 c2 c3 H12 _ IH]; [done|].
  destruct H12 as [st w o w' Hg Hb]. simpl in *.
  pose proof (product_urls_step st w o w' Hg Hb). set_solver.
Qed.

(** X9: [product_urls] only grows: what is recorded at one point of the
    traversal is still there at every later point, and so in the result. *)
Theorem product_urls_mono (o : outcome) (w : World) (o' : outcome) (w' : World) :
  rtc iter (o, w) (o', w') ->
  product_urls (state_of o) ⊆ product_urls (state_of o').
Proof. apply (product_urls_rtc (o, w) (o', w')). Qed.


(** *** Where tasks come from, and how deep they are *)

Local Abbreviation origin_inv := (Crawler.origin_inv cfg domain).
Local Abbreviation disjoint_inv := (Crawler.disjoint_inv domain).

Lemma origin_inv_start : origin_inv (state_of_start domain).
Proof.
  unfold Crawler.origin_inv, state_of_start. simpl.
  split; [|split; [|split]].
  - intros u d H. apply list_elem_of_singleton in H. left. exact H.
  - intros u d v H. inversion H.
  - intros u d v0 v H. inversion H.
  - intros u d H. inversion H.
Qed.

(** Page, link and product entries add no task. *)
Lemma origin_inv_other st q v p e :
  is_fetch e = false -> (forall u d vis, e <> EvGet u d vis) ->
  (forall u d, e <> EvPut u d) ->
  q ⊆ queue st -> origin_inv st ->
  origin_inv (CState q v p (log st ++ [e])).
Proof.
  intros Hf Hg Hp Hq (H1 & H2 & H3 & H4). unfold Crawler.origin_inv. simpl.
  split; [|split; [|split]].
  - intros u d H. rewrite elem_of_app. apply Hq in H. destruct (H1 u d H); auto.
  - intros u d vis H. rewrite elem_of_app.
    apply elem_of_app in H as [H|H]; [destruct (H2 u d vis H); auto|].
    apply list_elem_of_singleton in H. symmetry in H. destruct (Hg _ _ _ H).
  - intros u d v0 v1 H. rewrite elem_of_app.
    apply elem_of_app in H as [H|H].
    + destruct (H3 u d v0 v1 H) as [Hd [Ho|Ho]]; auto.
    + apply list_elem_of_singleton in H. subst e. discriminate.
  - intros u d H. apply elem_of_app in H as [H|H]; [eauto|].
    apply list_elem_of_singleton in H. symmetry in H. destruct (Hp _ _ H).
Qed.

Lemma origin_inv_get st url depth rest :
  queue st = (url, depth) :: rest -> origin_inv st ->
  origin_inv (after_get st url depth rest).
Proof.
  intros Hq (H1 & H2 & H3 & H4). unfold Crawler.origin_inv, after_get. simpl.
  assert ((url, depth) = (root, 0) \/ EvPut url depth ∈ log st) as Ho
    by (apply H1; rewrite Hq; left).
  split; [|split; [|split]].
  - intros u d H. rewrite elem_of_app.
    destruct (H1 u d) as [?|?]; [rewrite Hq; right; exact H|auto|auto].
  - intros u d vis H. rewrite elem_of_app.
    apply elem_of_app in H as [H|H]; [destruct (H2 u d vis H); auto|].
    apply list_elem_of_singleton in H. inversion H; subst. destruct Ho; auto.
  - intros u d v0 v1 H. rewrite elem_of_app.
    apply elem_of_app in H as [H|H].
    + destruct (H3 u d v0 v1 H) as [Hd [?|?]]; auto.
    + apply list_elem_of_singleton in H. discriminate.
  - intros u d H. apply elem_of_app in H as [H|H]; [eauto|].
    apply list_elem_of_singleton in H. discriminate.
Qed.

Lemma origin_depth st url depth rest :
  queue st = (url, depth) :: rest -> origin_inv st -> 0 <= depth.
Proof.
  intros Hq (H1 & _ & _ & H4).
  destruct (H1 url depth) as [Ho|Ho]; [rewrite Hq; left| |].
  - inversion Ho. lia.
  - destruct (H4 url depth Ho) as [? _]. lia.
Qed.

Lemma origin_inv_visit st url depth rest :
  queue st = (url, depth) :: rest -> depth <= max_depth cfg -> origin_inv st ->
  origin_inv (after_visit st url depth rest).
Proof.
  intros Hq Hd H.
  pose proof (origin_depth st url depth rest Hq H) as H0.
  destruct (origin_inv_get st url depth rest Hq H) as (H1 & H2 & H3 & H4).
  unfold Crawler.origin_inv, after_visit, after_get in *. simpl in *.
  split; [|split; [|split]].
  - intros u d Hin. rewrite elem_of_app. destruct (H1 u d Hin); auto.
  - intros u d vis Hin. rewrite elem_of_app.
    apply elem_of_app in Hin as [Hin|Hin]; [destruct (H2 u d vis Hin); auto|].
    apply list_elem_of_singleton in Hin. discriminate.
  - intros u d v0 v1 Hin. rewrite elem_of_app.
    apply elem_of_app in Hin as [Hin|Hin].
    + destruct (H3 u d v0 v1 Hin) as [Hb [?|?]]; auto.
    + apply list_elem_of_singleton in Hin. inversion Hin; subst.
      split; [lia|].
      destruct (H2 url depth (visited st)) as [?|?]; auto.
      rewrite elem_of_app, list_elem_of_singleton. auto.
  - intros u d Hin. apply elem_of_app in Hin as [Hin|Hin]; [eauto|].
    apply list_elem_of_singleton in Hin. discriminate.
Qed.

Lemma origin_inv_put st v p link depth :
  0 <= depth <= max_depth cfg ->
  is_product_url link = false -> str_in domain link = true ->
  origin_inv st ->
  origin_inv (CState (queue st ++ [(link, depth + 1)]) v p
                     (log st ++ [EvPut link (depth + 1)])).
Proof.
  intros Hd Hp Hdom (H1 & H2 & H3 & H4). unfold Crawler.origin_inv. simpl.
  split; [|split; [|split]].
  - intros u d H. rewrite elem_of_app, list_elem_of_singleton.
    apply elem_of_app in H as [H|H]; [destruct (H1 u d H); auto|].
    apply list_elem_of_singleton in H. inversion H; subst. auto.
  - intros u d vis H. rewrite elem_of_app.
    apply elem_of_app in H as [H|H]; [destruct (H2 u d vis H); auto|].
    apply list_elem_of_singleton in H. discriminate.
  - intros u d v0 v1 H. rewrite elem_of_app.
    apply elem_of_app in H as [H|H].
    + destruct (H3 u d v0 v1 H) as [Hb [?|?]]; auto.
    + apply list_elem_of_singleton in H. discriminate.
  - intros u d H. apply elem_of_app in H as [H|H]; [eauto|].
    apply list_elem_of_singleton in H. inversion H; subst.
    split; [lia|auto].
Qed.

Lemma process_link_origin_inv page depth st link :
  0 <= depth <= max_depth cfg ->
  origin_inv st -> origin_inv (process_link page depth st link).
Proof.
  intros Hd H.
  assert (origin_inv (CState (queue st) (visited st) (product_urls st)
                             (log st ++ [EvLink page link (visited st)]))) as Hl
    by (apply origin_inv_other; [reflexivity|discriminate|discriminate|done|exact H]).
  destruct (process_link_cases page depth st link)
    as [[Hv ->]|[[Hv [Hp ->]]|[[Hv [Hp [Hdom ->]]]|[Hv [Hp [Hdom ->]]]]]].
  - exact Hl.
  - apply (origin_inv_other
             (CState (queue st) (visited st) (product_urls st)
                     (log st ++ [EvLink page link (visited st)])));
      [reflexivity|discriminate|discriminate|done|exact Hl].
  - apply (origin_inv_put
             (CState (queue st) (visited st) (product_urls st)
                     (log st ++ [EvLink page link (visited st)])));
      [exact Hd|exact Hp|exact Hdom|exact Hl].
  - exact Hl.
Qed.

Lemma origin_inv_step st w o w' :
  origin_inv st -> loop_guard st = true -> loop_body st w = (o, w') ->
  origin_inv (state_of o).
Proof.
  intros H Hg Hb.
  destruct (loop_body_cases st w o w' Hg Hb) as (url & depth & rest & Hq & Hsz & Hc).
  pose proof (origin_depth st url depth rest Hq H) as H0.
  destruct Hc as [(_ & -> & _)|(Hd & Hv & [(_ & ->)|[(h & e & _ & _ & ->)|(h & ls & _ & _ & ->)]])];
    simpl state_of.
  - apply origin_inv_get; assumption.
  - apply origin_inv_visit; assumption.
  - apply origin_inv_visit; assumption.
  - apply fold_process_link_ind.
    + apply (origin_inv_other (after_visit st url depth rest));
        [reflexivity|discriminate|discriminate|done|].
      apply origin_inv_visit; assumption.
    + intros st' link _. apply process_link_origin_inv. lia.
Qed.

Lemma reaches_origin_inv w0 o w : reaches w0 o w -> origin_inv (state_of o).
Proof.
  apply (reaches_inv origin_inv); [apply origin_inv_start|].
  eauto using origin_inv_step.
Qed.

(** X11: Every URL handed to [fetch_url] contains the domain name, and it is
    the root or not a product URL: a link that the classifier accepts is
    never fetched. *)
Theorem fetched_within_domain (w0 : World) (o : outcome) (w : World) (u : string) :
  reaches w0 o w ->
  u ∈ fetched (log (state_of o)) ->
  str_in domain u = true /\ (u = root \/ is_product_url u = false).
Proof.
  intros Hr Hu. destruct (reaches_origin_inv w0 o w Hr) as (_ & _ & H3 & H4).
  apply elem_of_fetched in Hu as (d & v0 & v & Hu).
  destruct (H3 u d v0 v Hu) as [_ [Ho|Ho]].
  - inversion Ho; subst. split; [apply str_in_root|left; reflexivity].
  - destruct (H4 u d Ho) as (_ & Hp & Hd). auto.
Qed.

(** X12: Depth bookkeeping: a task in the queue is the start task or has a depth
    from 1 to [max_depth + 1]; a task handed to [fetch_url] has a depth from
    0 to [max_depth]. *)
Theorem depth_bounds (w0 : World) (o : outcome) (w : World) :
  reaches w0 o w ->
  (forall u d, (u, d) ∈ queue (state_of o) ->
     (u, d) = (root, 0) \/ 1 <= d <= max_depth cfg + 1) /\
  (forall u d v0 v, EvFetch u d v0 v ∈ log (state_of o) -> 0 <= d <= max_depth cfg).
Proof.
  intros Hr. destruct (reaches_origin_inv w0 o w Hr) as (H1 & _ & H3 & H4). split.
  - intros u d H. destruct (H1 u d H) as [?|Hp]; [auto|].
    right. apply (H4 u d Hp).
  - intros u d v0 v H. apply (H3 u d v0 v H).
Qed.

(** X13: With [max_depth = 0] nothing but the root is ever fetched, whatever the
    pages link to. *)
Theorem depth_zero_fetches_root_only (w0 : World) (o : outcome) (w : World) :
  max_depth cfg = 0 ->
  reaches w0 o w ->
  fetched (log (state_of o)) = [] \/ fetched (log (state_of o)) = [root].
Proof.
  intros Hd Hr.
  destruct (reaches_origin_inv w0 o w Hr) as (_ & _ & H3 & H4).
  destruct (reaches_visited_inv w0 o w Hr) as [Hn _].
  assert (forall u, u ∈ fetched (log (state_of o)) -> u = root) as Hroot.
  { intros u Hu. apply elem_of_fetched in Hu as (d & v0 & v & Hu).
    destruct (H3 u d v0 v Hu) as [Hb [Ho|Ho]]; [congruence|].
    destruct (H4 u d Ho) as [? _]. lia. }
  destruct (fetched (log (state_of o))) as [|a [|b l]]; [auto| |].
  - right. rewrite (Hroot a); [reflexivity|left].
  - exfalso. apply NoDup_cons in Hn as [Hn _]. apply Hn.
    rewrite (Hroot a) by left. rewrite (Hroot b) by (right; left). left.
Qed.


(** *** Visited URLs and product URLs stay apart *)

Lemma disjoint_inv_start : disjoint_inv (state_of_start domain).
Proof.
  unfold Crawler.disjoint_inv, state_of_start. simpl.
  split; [set_solver|]. split; [set_solver|]. split.
  - right. split; [reflexivity|].
    intros t H. apply list_elem_of_singleton in H. exact H.
  - intros u d H. apply list_elem_of_singleton in H. left. exact H.
Qed.

Lemma disjoint_inv_get st url depth rest :
  queue st = (url, depth) :: rest -> disjoint_inv st ->
  disjoint_inv (after_get st url depth rest).
Proof.
  intros Hq (H1 & H2 & H3 & H4). unfold Crawler.disjoint_inv, after_get. simpl.
  split; [exact H1|]. split; [exact H2|]. split.
  - destruct H3 as [H3|[H3 H3']]; [left; exact H3|right].
    split; [exact H3|]. intros t Ht. apply H3'. rewrite Hq. right. exact Ht.
  - intros u d H. apply H4. rewrite Hq. right. exact H.
Qed.

Lemma disjoint_inv_visit st url depth rest :
  queue st = (url, depth) :: rest -> url ∉ visited st -> disjoint_inv st ->
  disjoint_inv (after_visit st url depth rest) /\
  root ∈ visited (after_visit st url depth rest).
Proof.
  intros Hq Hv (H1 & H2 & H3 & H4).
  assert ((url, depth) ∈ queue st) as Hin by (rewrite Hq; left).
  assert (url ∉ product_urls st) as Hnp.
  { intros Hu. destruct H3 as [H3|[H3 _]]; [|set_solver].
    destruct (H4 url depth Hin) as [Ho|Ho].
    - inversion Ho; subst. contradiction.
    - rewrite (H2 url Hu) in Ho. discriminate. }
  assert (root ∈ ({[url]} ∪ visited st : gset string)) as Hroot.
  { destruct H3 as [H3|[_ H3]]; [set_solver|].
    specialize (H3 _ Hin). inversion H3; subst. set_solver. }
  split; [|exact Hroot].
  unfold Crawler.disjoint_inv, after_visit. simpl.
  split; [set_solver|]. split; [exact H2|]. split; [left; exact Hroot|].
  intros u d H. apply H4. rewrite Hq. right. exact H.
Qed.

Lemma process_link_disjoint_inv page depth st link :
  root ∈ visited st -> disjoint_inv st ->
  disjoint_inv (process_link page depth st link) /\
  root ∈ visited (process_link page depth st link).
Proof.
  intros Hroot (H1 & H2 & H3 & H4).
  split; [|rewrite process_link_visited; exact Hroot].
  destruct (process_link_cases page depth st link)
    as [[Hv ->]|[[Hv [Hp ->]]|[[Hv [Hp [Hdom ->]]]|[Hv [Hp [Hdom ->]]]]]];
    unfold Crawler.disjoint_inv; simpl.
  - auto.
  - split; [set_solver|]. split; [|auto].
    intros u Hu. apply elem_of_union in Hu as [Hu|Hu]; [|auto].
    apply elem_of_singleton in Hu. subst u. exact Hp.
  - split; [exact H1|]. split; [exact H2|]. split; [left; exact Hroot|].
    intros u d H. apply elem_of_app in H as [H|H]; [auto|].
    apply list_elem_of_singleton in H. inversion H; subst. auto.
  - auto.
Qed.

Lemma disjoint_inv_step st w o w' :
  disjoint_inv st -> loop_guard st = true -> loop_body st w = (o, w') ->
  disjoint_inv (state_of o).
Proof.
  intros H Hg Hb.
  destruct (loop_body_cases st w o w' Hg Hb) as (url & depth & rest & Hq & Hsz & Hc).
  destruct Hc as [(_ & -> & _)|(Hd & Hv & [(_ & ->)|[(h & e & _ & _ & ->)|(h & ls & _ & _ & ->)]])];
    simpl state_of.
  - apply disjoint_inv_get; assumption.
  - apply disjoint_inv_visit; assumption.
  - apply disjoint_inv_visit; assumption.
  - apply (fold_process_link_ind (fun st' => disjoint_inv st' /\ root ∈ visited st')).
    + exact (disjoint_inv_visit st url depth rest Hq Hv H).
    + intros st' link _ [Hinv Hroot]. apply process_link_disjoint_inv; assumption.
Qed.

Lemma reaches_disjoint_inv w0 o w : reaches w0 o w -> disjoint_inv (state_of o).
Proof.
  apply (reaches_inv disjoint_inv); [apply disjoint_inv_start|].
  eauto using disjoint_inv_step.
Qed.

(** X10: No URL is both visited and recorded as a product: what [crawl_domain]
    reports was never fetched. In particular the root is never reported,
    not even when it matches a product pattern itself. *)
Theorem products_never_visited (w0 : World) (o : outcome) (w : World) :
  reaches w0 o w ->
  visited (state_of o) ## product_urls (state_of o) /\
  (root ∉ product_urls (state_of o)).
Proof.
  intros Hr. destruct (reaches_disjoint_inv w0 o w Hr) as (H1 & _ & H3 & _).
  split; [exact H1|].
  intros Hroot. destruct H3 as [H3|[H3 _]]; set_solver.
Qed.


(** *** Breadth-first order *)

Lemma got_depths_app l1 l2 : got_depths (l1 ++ l2) = got_depths l1 ++ got_depths l2.
Proof.
  induction l1 as [|e l1 IH]; [reflexivity|].
  destruct e; simpl; rewrite IH; reflexivity.
Qed.

Lemma fetch_depths_app l1 l2 :
  fetch_depths (l1 ++ l2) = fetch_depths l1 ++ fetch_depths l2.
Proof.
  induction l1 as [|e l1 IH]; [reflexivity|].
  destruct e; simpl; rewrite IH; reflexivity.
Qed.

Lemma StronglySorted_snoc (l : list Z) (x : Z) :
  StronglySorted Z.le l -> (forall y, y ∈ l -> y <= x) ->
  StronglySorted Z.le (l ++ [x]).
Proof.
  induction l as [|a l IH]; intros Hs Hle; simpl.
  - constructor; constructor.
  - apply StronglySorted_inv in Hs as [Hs Ha]. constructor.
    + apply IH; [exact Hs|]. intros y Hy. apply Hle. right. exact Hy.
    + apply Forall_app. split; [exact Ha|].
      constructor; [apply Hle; left|constructor].
Qed.

Lemma bfs_level_inv d st : bfs_level d st -> bfs_inv st.
Proof.
  intros (H1 & H2 & H3 & H4 & H5 & H6). unfold bfs_inv.
  split; [exact H1|]. split; [|split; [exact H3|split; [|split; [exact H5|]]]].
  - intros x y Hx Hy. pose proof (H2 x Hx). pose proof (H2 y Hy). lia.
  - intros y x Hy Hx. pose proof (H4 y Hy). pose proof (H2 x Hx). lia.
  - intros y x Hy Hx. pose proof (H6 y Hy). pose proof (H2 x Hx). lia.
Qed.

Lemma bfs_level_get st url depth rest :
  queue st = (url, depth) :: rest -> bfs_inv st ->
  bfs_level depth (after_get st url depth rest).
Proof.
  intros Hq (H1 & H2 & H3 & H4 & H5 & H6). rewrite Hq in *. simpl in *.
  apply StronglySorted_inv in H1 as [H1 Hhd].
  unfold bfs_level, after_get. simpl.
  rewrite got_depths_app, fetch_depths_app. simpl. rewrite app_nil_r.
  assert (depth ∈ depth :: map snd rest) as Hin by left.
  split; [exact H1|]. split; [|split; [|split; [|split; [exact H5|]]]].
  - intros x Hx. split.
    + rewrite Forall_forall in Hhd. apply Hhd. exact Hx.
    + apply H2; [right; exact Hx|exact Hin].
  - apply StronglySorted_snoc; [exact H3|]. intros y Hy. apply H4; assumption.
  - intros y Hy. apply elem_of_app in Hy as [Hy|Hy]; [apply H4; assumption|].
    apply list_elem_of_singleton in Hy. lia.
  - intros y Hy. apply H6; assumption.
Qed.

Lemma bfs_level_fetch d st v p url v0 v1 :
  bfs_level d st ->
  bfs_level d (CState (queue st) v p (log st ++ [EvFetch url d v0 v1])).
Proof.
  intros (H1 & H2 & H3 & H4 & H5 & H6). unfold bfs_level. simpl.
  rewrite got_depths_app, fetch_depths_app. simpl. rewrite app_nil_r.
  split; [exact H1|]. split; [exact H2|]. split; [exact H3|]. split; [exact H4|].
  split.
  - apply StronglySorted_snoc; assumption.
  - intros y Hy. apply elem_of_app in Hy as [Hy|Hy]; [auto|].
    apply list_elem_of_singleton in Hy. lia.
Qed.

Lemma bfs_level_other d st v p e :
  got_depths [e] = [] -> fetch_depths [e] = [] ->
  bfs_level d st -> bfs_level d (CState (queue st) v p (log st ++ [e])).
Proof.
  intros Hg Hf H. unfold bfs_level in *. simpl.
  rewrite got_depths_app, fetch_depths_app, Hg, Hf, !app_nil_r. exact H.
Qed.

Lemma bfs_level_put d st v p link :
  bfs_level d st ->
  bfs_level d (CState (queue st ++ [(link, d + 1)]) v p
                      (log st ++ [EvPut link (d + 1)])).
Proof.
  intros (H1 & H2 & H3 & H4 & H5 & H6). unfold bfs_level. simpl.
  rewrite got_depths_app, fetch_depths_app, map_app. simpl. rewrite !app_nil_r.
  split; [|split; [|auto]].
  - apply StronglySorted_snoc; [exact H1|]. intros y Hy. apply (H2 y Hy).
  - intros x Hx. apply elem_of_app in Hx as [Hx|Hx]; [auto|].
    apply list_elem_of_singleton in Hx. lia.
Qed.

Lemma process_link_bfs_level page depth st link :
  bfs_level depth st -> bfs_level depth (process_link page depth st link).
Proof.
  intros H.
  pose proof (bfs_level_other depth st (visited st) (product_urls st)
                (EvLink page link (visited st)) eq_refl eq_refl H) as Hl.
  destruct (process_link_cases page depth st link)
    as [[Hv ->]|[[Hv [Hp ->]]|[[Hv [Hp [Hdom ->]]]|[Hv [Hp [Hdom ->]]]]]].
  - exact Hl.
  - apply (bfs_level_other depth
             (CState (queue st) (visited st) (product_urls st)
                     (log st ++ [EvLink page link (visited st)])));
      [reflexivity|reflexivity|exact Hl].
  - apply (bfs_level_put depth
             (CState (queue st) (visited st) (product_urls st)
                     (log st ++ [EvLink page link (visited st)]))).
    exact Hl.
  - exact Hl.
Qed.

Lemma bfs_inv_step st w o w' :
  bfs_inv st -> loop_guard st = true -> loop_body st w = (o, w') ->
  bfs_inv (state_of o).
Proof.
  intros H Hg Hb.
  destruct (loop_body_cases st w o w' Hg Hb) as (url & depth & rest & Hq & Hsz & Hc).
  pose proof (bfs_level_get st url depth rest Hq H) as Hget.
  pose proof (bfs_level_fetch depth (after_get st url depth rest)
                ({[url]} ∪ visited st) (product_urls st) url
                (visited st) ({[url]} ∪ visited st) Hget) as Hvisit.
  change (bfs_level depth (after_visit st url depth rest)) in Hvisit.
  destruct Hc as [(_ & -> & _)|(Hd & Hv & [(_ & ->)|[(h & e & _ & _ & ->)|(h & ls & _ & _ & ->)]])];
    simpl state_of; try (apply (bfs_level_inv depth); assumption).
  apply (bfs_level_inv depth). apply fold_process_link_ind.
  - apply (bfs_level_other depth (after_visit st url depth rest));
      [reflexivity|reflexivity|exact Hvisit].
  - intros st' link _. apply process_link_bfs_level.
Qed.

Lemma bfs_inv_start : bfs_inv (state_of_start domain).
Proof.
  unfold bfs_inv, state_of_start. simpl.
  split; [repeat constructor|]. split; [|split; [constructor|split; [|split; [constructor|]]]].
  - intros x y Hx Hy. apply list_elem_of_singleton in Hx, Hy. lia.
  - intros y x Hy. inversion Hy.
  - intros y x Hy. inversion Hy.
Qed.

(** X14: The traversal is breadth-first: tasks are dequeued, and pages fetched,
    in order of non-decreasing depth; the queue is sorted by depth, holds
    at most two adjacent depths, and nothing in it is less deep than a task
    dequeued before. *)
Theorem breadth_first_order (w0 : World) (o : outcome) (w : World) :
  reaches w0 o w ->
  StronglySorted Z.le (got_depths (log (state_of o))) /\
  StronglySorted Z.le (fetch_depths (log (state_of o))) /\
  StronglySorted Z.le (map snd (queue (state_of o))) /\
  (forall x y, x ∈ map snd (queue (state_of o)) ->
               y ∈ map snd (queue (state_of o)) -> x <= y + 1) /\
  (forall y x, y ∈ got_depths (log (state_of o)) ->
               x ∈ map snd (queue (state_of o)) -> y <= x).
Proof.
  intros Hr.
  assert (bfs_inv (state_of o)) as (H1 & H2 & H3 & H4 & H5 & H6).
  { revert Hr. apply (reaches_inv bfs_inv); [apply bfs_inv_start|].
    eauto using bfs_inv_step. }
  auto.
Qed.


(** *** How a crawl ends *)

Lemma loop_body_fetch_raise st w url depth rest w' html e :
  queue st = (url, depth) :: rest ->
  depth <= max_depth cfg -> url ∉ visited st ->
  fetch_url w url = (w', Some html) ->
  parse_links html url = Raise e ->
  loop_body st w = (Raised e (after_visit st url depth rest), w').
Proof.
  intros Hq Hd Hv Hf Hp. unfold Crawler.loop_body.
  rewrite Hq, (loop_body_enter st url depth Hd Hv), Hf, Hp. reflexivity.
Qed.

(** X7: Nothing in [crawl_domain] catches what [parse_links] raises: when the
    root page is fetched and cannot be parsed, [crawl_domain] ends in that
    exception, with the root visited and nothing recorded. *)
Theorem crawl_domain_parse_error (w w' : World) (html : string) (e : exn) (fuel : nat) :
  0 <= max_depth cfg -> 0 < max_pages cfg ->
  fetch_url w root = (w', Some html) ->
  parse_links html root = Raise e ->
  crawl_domain (S fuel) domain w =
    Some (Raised e (after_visit (state_of_start domain) root 0 []), w').
Proof.
  intros Hd Hp Hf Hparse. unfold Crawler.crawl_domain.
  apply while_loop_raise; [apply loop_guard_start; exact Hp|].
  apply loop_body_fetch_raise with (html := html);
    [reflexivity|exact Hd|set_solver|exact Hf|exact Hparse].
Qed.

Lemma while_loop_normal_guard fuel st w st' w' :
  while_loop fuel domain st w = Some (Normal st', w') -> loop_guard st' = false.
Proof.
  revert st w. induction fuel as [|fuel IH]; intros st w H; [discriminate|].
  simpl in H. destruct (loop_guard st) eqn:Hg.
  - destruct (loop_body st w) as [[st1|e st1] w1]; [eauto|discriminate].
  - inversion H; subst. exact Hg.
Qed.

(** X8: When [crawl_domain] returns, the queue is empty or the page budget is
    used up to the last page: the crawl does not stop early. *)
Theorem crawl_domain_stops_when (w0 : World) (fuel : nat) (st : cstate) (w : World) :
  0 <= max_pages cfg ->
  crawl_domain fuel domain w0 = Some (Normal st, w) ->
  queue st = [] \/ Z.of_nat (size (visited st)) = max_pages cfg.
Proof.
  intros Hp Hrun.
  pose proof (while_loop_normal_guard _ _ _ _ _ Hrun) as Hg.
  pose proof (size_within_budget w0 (Normal st) w Hp (crawl_domain_reaches _ _ _ _ Hrun))
    as Hsz.
  simpl in Hsz. unfold Crawler.loop_guard in Hg.
  apply andb_false_iff in Hg as [Hg|Hg].
  - left. apply negb_false_iff, bool_decide_eq_true in Hg. exact Hg.
  - right. apply Z.ltb_ge in Hg. lia.
Qed.

(** *** Nothing that was queued is lost *)

Local Abbreviation cover_inv := (Crawler.cover_inv cfg domain).

Lemma cover_inv_start : cover_inv (state_of_start domain).
Proof.
  unfold Crawler.cover_inv, state_of_start. simpl.
  split; [left; left|]. split.
  - intros u d H. inversion H.
  - intros u d v H. inversion H.
Qed.

(** The dequeue, when the iteration ends with [url] in [v']: by the
    discard because it was visited already, or by the visit. *)
Lemma cover_inv_get st url depth rest v' p l' :
  queue st = (url, depth) :: rest ->
  visited st ⊆ v' -> (depth <= max_depth cfg -> url ∈ v') ->
  (forall e, e ∈ l' -> exists u d v0 v1, e = EvFetch u d v0 v1) ->
  cover_inv st ->
  cover_inv (CState rest v' p ((log st ++ [EvGet url depth (visited st)]) ++ l')).
Proof.
  intros Hq Hsub Hurl Hl' (H1 & H2 & H3). unfold Crawler.cover_inv. simpl.
  assert (forall u d, (u, d) ∈ queue st ->
            (u, d) ∈ rest \/
            exists v, EvGet u d v ∈ (log st ++ [EvGet url depth (visited st)]) ++ l')
    as Hmove.
  { intros u d Hin. rewrite Hq in Hin. apply elem_of_cons in Hin as [Heq|Hin]; [|auto].
    inversion Heq; subst. right. exists (visited st).
    rewrite !elem_of_app, list_elem_of_singleton. auto. }
  assert (forall u d, (exists v, EvGet u d v ∈ log st) ->
            exists v, EvGet u d v ∈ (log st ++ [EvGet url depth (visited st)]) ++ l')
    as Hkeep.
  { intros u d [v Hv]. exists v. rewrite !elem_of_app. auto. }
  split; [|split].
  - destruct H1 as [H1|H1]; [apply Hmove; exact H1|right; apply Hkeep; exact H1].
  - intros u d Hput. rewrite !elem_of_app, list_elem_of_singleton in Hput.
    destruct Hput as [[Hput|Hput]|Hput]; [|discriminate|].
    + destruct (H2 u d Hput) as [Hin|Hg]; [apply Hmove; exact Hin|right; apply Hkeep; exact Hg].
    + destruct (Hl' _ Hput) as (? & ? & ? & ? & ?). discriminate.
  - intros u d v Hget Hd. rewrite !elem_of_app, list_elem_of_singleton in Hget.
    destruct Hget as [[Hget|Hget]|Hget].
    + apply Hsub. eapply H3; eassumption.
    + inversion Hget; subst. auto.
    + destruct (Hl' _ Hget) as (? & ? & ? & ? & ?). discriminate.
Qed.

Lemma cover_inv_other st e :
  (forall u d, e <> EvPut u d) -> (forall u d v, e <> EvGet u d v) ->
  cover_inv st ->
  cover_inv (CState (queue st) (visited st) (product_urls st) (log st ++ [e])).
Proof.
  intros Hp Hg (H1 & H2 & H3). unfold Crawler.cover_inv. simpl.
  split; [|split].
  - destruct H1 as [H1|[v H1]]; [auto|]. right. exists v. rewrite elem_of_app. auto.
  - intros u d Hput. apply elem_of_app in Hput as [Hput|Hput].
    + destruct (H2 u d Hput) as [?|[v Hv]]; [auto|].
      right. exists v. rewrite elem_of_app. auto.
    + apply list_elem_of_singleton in Hput. symmetry in Hput. destruct (Hp _ _ Hput).
  - intros u d v Hget Hd. apply elem_of_app in Hget as [Hget|Hget]; [eauto|].
    apply list_elem_of_singleton in Hget. symmetry in Hget. destruct (Hg _ _ _ Hget).
Qed.

Lemma cover_inv_put st link d :
  cover_inv st ->
  cover_inv (CState (queue st ++ [(link, d)]) (visited st) (product_urls st)
                    (log st ++ [EvPut link d])).
Proof.
  intros (H1 & H2 & H3). unfold Crawler.cover_inv. simpl.
  split; [|split].
  - destruct H1 as [H1|[v H1]]; [left; rewrite elem_of_app; auto|].
    right. exists v. rewrite elem_of_app. auto.
  - intros u d' Hput. apply elem_of_app in Hput as [Hput|Hput].
    + destruct (H2 u d' Hput) as [?|[v Hv]]; [left; rewrite elem_of_app; auto|].
      right. exists v. rewrite elem_of_app. auto.
    + apply list_elem_of_singleton in Hput. inversion Hput; subst.
      left. rewrite elem_of_app, list_elem_of_singleton. auto.
  - intros u d' v Hget Hd. apply elem_of_app in Hget as [Hget|Hget]; [eauto|].
    apply list_elem_of_singleton in Hget. discriminate.
Qed.

Lemma process_link_cover_inv page depth st link :
  cover_inv st -> cover_inv (process_link page depth st link).
Proof.
  intros H.
  assert (cover_inv (CState (queue st) (visited st) (product_urls st)
                            (log st ++ [EvLink page link (visited st)]))) as Hl
    by (apply cover_inv_other; [discriminate|discriminate|exact H]).
  destruct (process_link_cases page depth st link)
    as [[Hv ->]|[[Hv [Hp ->]]|[[Hv [Hp [Hdom ->]]]|[Hv [Hp [Hdom ->]]]]]].
  - exact Hl.
  - destruct Hl as (H1 & H2 & H3). unfold Crawler.cover_inv. simpl in *.
    split; [|split].
    + destruct H1 as [H1|[v H1]]; [auto|]. right. exists v. rewrite elem_of_app. auto.
    + intros u d Hput. apply elem_of_app in Hput as [Hput|Hput].
      * destruct (H2 u d Hput) as [?|[v Hv']]; [auto|].
        right. exists v. rewrite elem_of_app. auto.
      * apply list_elem_of_singleton in Hput. discriminate.
    + intros u d v Hget Hd. apply elem_of_app in Hget as [Hget|Hget]; [eauto|].
      apply list_elem_of_singleton in Hget. discriminate.
  - apply (cover_inv_put
             (CState (queue st) (visited st) (product_urls st)
                     (log st ++ [EvLink page link (visited st)]))). exact Hl.
  - exact Hl.
Qed.

Lemma cover_inv_step st w o w' :
  cover_inv st -> loop_guard st = true -> loop_body st w = (o, w') ->
  cover_inv (state_of o).
Proof.
  intros H Hg Hb.
  destruct (loop_body_cases st w o w' Hg Hb) as (url & depth & rest & Hq & Hsz & Hc).
  assert (cover_inv (after_visit st url depth rest)) as Hvisit.
  { apply (cover_inv_get st url depth rest ({[url]} ∪ visited st) (product_urls st)
             [EvFetch url depth (visited st) ({[url]} ∪ visited st)] Hq);
      [set_solver|set_solver| |exact H].
    intros e He. apply list_elem_of_singleton in He. eauto. }
  destruct Hc as [(Hbad & -> & _)|(Hd & Hv & [(_ & ->)|[(h & e & _ & _ & ->)|(h & ls & _ & _ & ->)]])];
    simpl state_of; try exact Hvisit.
  - pose proof (cover_inv_get st url depth rest (visited st) (product_urls st) [] Hq) as Hget.
    rewrite app_nil_r in Hget. apply Hget; [done| |intros e He; inversion He|exact H].
    intros Hd. destruct Hbad as [Hbad|Hbad]; [lia|exact Hbad].
  - apply fold_process_link_ind.
    + apply (cover_inv_other (after_visit st url depth rest));
        [discriminate|discriminate|exact Hvisit].
    + intros st' link _. apply process_link_cover_inv.
Qed.

(** X15: When the traversal has emptied the queue, every link that was ever put
    on it at a depth within [max_depth] has been visited, and so has the
    root when [max_depth >= 0]: only the page budget can keep a discovered
    page from being fetched. *)
Theorem crawl_covers_queue (w0 : World) (o : outcome) (w : World) :
  reaches w0 o w ->
  queue (state_of o) = [] ->
  (0 <= max_depth cfg -> root ∈ visited (state_of o)) /\
  (forall u d, EvPut u d ∈ log (state_of o) -> d <= max_depth cfg ->
     u ∈ visited (state_of o)).
Proof.
  intros Hr Hq.
  assert (cover_inv (state_of o)) as (H1 & H2 & H3).
  { revert Hr. apply (reaches_inv cover_inv); [apply cover_inv_start|].
    eauto using cover_inv_step. }
  rewrite Hq in *. split.
  - intros Hd. destruct H1 as [H1|[v H1]]; [inversion H1|]. eapply H3; eauto.
  - intros u d Hput Hd. destruct (H2 u d Hput) as [Hin|[v Hv]]; [inversion Hin|].
    eapply H3; eauto.
Qed.


End Traversal.

End CrawlFacts.

(* ===================================================================== *)
(** ** The semaphore of [crawl_domains] *)
(* ===================================================================== *)

Module OrchestratorFacts.
Import Crawler Orchestrator.

Lemma crawling_cons t ts : crawling (t :: ts) = (active t + crawling ts)%nat.
Proof. destruct t; reflexivity. Qed.

Lemma crawling_insert ts i t t' :
  ts !! i = Some t ->
  (crawling (<[i := t']> ts) + active t = crawling ts + active t')%nat.
Proof.
  revert i. induction ts as [|x ts IH]; intros i Hi; [discriminate|].
  destruct i as [|i]; simpl in Hi.
  - inversion Hi; subst. change (<[0%nat := t']> (t :: ts)) with (t' :: ts).
    rewrite !crawling_cons. lia.
  - change (<[S i := t']> (x :: ts)) with (x :: <[i := t']> ts).
    rewrite !crawling_cons. specialize (IH i Hi). lia.
Qed.

Lemma crawling_waiting domains : crawling (Waiting <$> domains) = 0%nat.
Proof. induction domains as [|d ds IH]; [reflexivity|exact IH]. Qed.

Section Gather.

Context {World : Type}.
Variable session_get : World -> string -> World * result response.
Variable parse_links : string -> string -> result (list string).
Variable cfg : config.

Local Abbreviation start := (Orchestrator.start World cfg).
Local Abbreviation ostep := (Orchestrator.ostep World session_get parse_links cfg).
Local Abbreviation sem_inv := (Orchestrator.sem_inv World cfg).

Lemma sem_inv_start domains w s0 : start domains w = Some s0 -> sem_inv s0.
Proof.
  unfold Orchestrator.start.
  destruct (Z.ltb_spec (max_concurrent_requests cfg) 0); [discriminate|].
  intros H0. inversion H0; subst. unfold Orchestrator.sem_inv. simpl.
  rewrite crawling_waiting. lia.
Qed.

Lemma sem_inv_step s s' : ostep s s' -> sem_inv s -> sem_inv s'.
Proof.
  intros Hstep [H0 Hsum]. unfold Orchestrator.sem_inv.
  destruct Hstep as [s i d Hi Hpos|s i d st st' w' Hi Hg Hb|s i d st e st' w' Hi Hg Hb|s i d st Hi Hg];
    simpl.
  - pose proof (crawling_insert (tasks s) i _ (Crawling d (state_of_start d)) Hi) as Hc.
    simpl in Hc. lia.
  - pose proof (crawling_insert (tasks s) i _ (Crawling d st') Hi) as Hc.
    simpl in Hc. lia.
  - pose proof (crawling_insert (tasks s) i _ (Failed d e) Hi) as Hc.
    simpl in Hc. lia.
  - pose proof (crawling_insert (tasks s) i _ (Finished d) Hi) as Hc.
    simpl in Hc. lia.
Qed.

Lemma sem_inv_rtc s s' : rtc ostep s s' -> sem_inv s -> sem_inv s'.
Proof. induction 1; eauto using sem_inv_step. Qed.

(** A step that does not take the semaphore leaves the waiting tasks
    waiting and starts no crawl. *)
Lemma ostep_saturated s s' :
  sem_value s = 0 -> ostep s s' ->
  (forall i d, tasks s !! i = Some (Waiting d) -> tasks s' !! i = Some (Waiting d)) /\
  (crawling (tasks s') <= crawling (tasks s))%nat.
Proof.
  intros Hz Hstep.
  destruct Hstep as [s i d Hi Hpos|s i d st st' w' Hi Hg Hb|s i d st e st' w' Hi Hg Hb|s i d st Hi Hg];
    [lia| | |]; simpl.
  - split.
    + intros j d' Hj. destruct (decide (i = j)) as [->|Hne]; [congruence|].
      rewrite list_lookup_insert_ne by exact Hne. exact Hj.
    + pose proof (crawling_insert (tasks s) i _ (Crawling d st') Hi) as Hc.
      simpl in Hc. lia.
  - split.
    + intros j d' Hj. destruct (decide (i = j)) as [->|Hne]; [congruence|].
      rewrite list_lookup_insert_ne by exact Hne. exact Hj.
    + pose proof (crawling_insert (tasks s) i _ (Failed d e) Hi) as Hc.
      simpl in Hc. lia.
  - split.
    + intros j d' Hj. destruct (decide (i = j)) as [->|Hne]; [congruence|].
      rewrite list_lookup_insert_ne by exact Hne. exact Hj.
    + pose proof (crawling_insert (tasks s) i _ (Finished d) Hi) as Hc.
      simpl in Hc. lia.
Qed.

(** C10: in every state of a run of [crawl_domains] (the semaphore could be
    created, so [max_concurrent_requests >= 0]), at most
    [max_concurrent_requests] domain tasks are inside [crawl_domain]; and
    when that many are, the next move of the event loop starts no further
    one: every waiting task is still waiting after it, and the number of
    crawling tasks has not gone up. *)
Theorem C10_at_most_max_concurrent (domains : list string) (w : World)
    (s0 s : ostate World) :
  start domains w = Some s0 ->
  rtc ostep s0 s ->
  Z.of_nat (crawling (tasks s)) <= max_concurrent_requests cfg /\
  (Z.of_nat (crawling (tasks s)) = max_concurrent_requests cfg ->
   forall s', ostep s s' ->
     (forall i d, tasks s !! i = Some (Waiting d) -> tasks s' !! i = Some (Waiting d)) /\
     (crawling (tasks s') <= crawling (tasks s))%nat).
Proof.
  intros Hstart Hrun.
  destruct (sem_inv_rtc s0 s Hrun (sem_inv_start domains w s0 Hstart)) as [H0 Hsum].
  split; [lia|].
  intros Hsat s' Hstep. apply ostep_saturated; [lia|exact Hstep].
Qed.

(** *** What ends up in [results], and whether the run can go on *)

Local Abbreviation results_inv := (Orchestrator.results_inv World).

Lemma task_domain_waiting (domains : list string) : task_domain <$> (Waiting <$> domains) = domains.
Proof.
  rewrite <- list_fmap_compose. induction domains as [|d ds IH]; [reflexivity|].
  rewrite fmap_cons, IH. reflexivity.
Qed.

Lemma lookup_waiting (domains : list string) i t :
  (Waiting <$> domains) !! i = Some t -> exists d, t = Waiting d /\ domains !! i = Some d.
Proof.
  rewrite list_lookup_fmap. destruct (domains !! i) as [d|]; simpl; [|discriminate].
  intros H. inversion H. eauto.
Qed.

(** Replacing a task by one for the same domain keeps the domains. *)
Lemma task_domain_insert (ts : list task) i t t' :
  ts !! i = Some t -> task_domain t' = task_domain t ->
  task_domain <$> <[i := t']> ts = task_domain <$> ts.
Proof.
  intros Hi Hd. rewrite list_fmap_insert, Hd. apply list_insert_id.
  rewrite list_lookup_fmap, Hi. reflexivity.
Qed.

Lemma lookup_insert_task (ts : list task) i j (t t' x : task) :
  ts !! i = Some t -> <[i := t']> ts !! j = Some x ->
  (j = i /\ x = t') \/ (j <> i /\ ts !! j = Some x).
Proof.
  intros Hi Hj. destruct (decide (j = i)) as [->|Hne].
  - left. rewrite list_lookup_insert_eq in Hj by (eapply lookup_lt_Some; exact Hi).
    inversion Hj. auto.
  - right. rewrite list_lookup_insert_ne in Hj by congruence. auto.
Qed.

Lemma finished_insert (ts : list task) i (t t' : task) d :
  ts !! i = Some t -> (forall d', t <> Finished d') ->
  (exists j, ts !! j = Some (Finished d)) ->
  exists j, <[i := t']> ts !! j = Some (Finished d).
Proof.
  intros Hi Hnf [j Hj]. exists j. rewrite list_lookup_insert_ne; [exact Hj|].
  intros ->. rewrite Hi in Hj. inversion Hj as [Heq]. destruct (Hnf _ Heq).
Qed.

Lemma results_inv_start domains w s0 : start domains w = Some s0 -> results_inv domains s0.
Proof.
  unfold Orchestrator.start.
  destruct (max_concurrent_requests cfg <? 0); [discriminate|].
  intros H. inversion H; subst. unfold Orchestrator.results_inv. simpl.
  split; [apply task_domain_waiting|]. split; [|split].
  - intros i d st Hi. apply lookup_waiting in Hi as (d' & Hd & _). discriminate.
  - intros d urls Hd. rewrite lookup_empty in Hd. discriminate.
  - intros i d Hi. apply lookup_waiting in Hi as (d' & Hd & _). discriminate.
Qed.

Lemma results_inv_step domains s s' :
  ostep s s' -> results_inv domains s -> results_inv domains s'.
Proof.
  intros Hstep (Hdom & Hcr & Hres & Hfin). unfold Orchestrator.results_inv.
  destruct Hstep as [s i d Hi Hpos|s i d st st' w' Hi Hg Hb|s i d st e st' w' Hi Hg Hb|s i d st Hi Hg];
    simpl.
  - split; [erewrite task_domain_insert; [exact Hdom|exact Hi|reflexivity]|].
    split; [|split].
    + intros j d' st Hj.
      apply (lookup_insert_task _ _ _ _ _ _ Hi) in Hj as [[-> Hx]|[_ Hj]]; [|eauto].
      injection Hx as -> ->. apply CrawlFacts.links_inv_start.
    + intros d' urls Hd. destruct (Hres d' urls Hd) as [Hex Hp].
      split; [|exact Hp]. apply (finished_insert _ _ _ _ _ Hi); [discriminate|exact Hex].
    + intros j d' Hj.
      apply (lookup_insert_task _ _ _ _ _ _ Hi) in Hj as [[_ Hx]|[_ Hj]]; [discriminate|eauto].
  - split; [erewrite task_domain_insert; [exact Hdom|exact Hi|reflexivity]|].
    split; [|split].
    + intros j d' st0 Hj.
      apply (lookup_insert_task _ _ _ _ _ _ Hi) in Hj as [[-> Hx]|[_ Hj]]; [|eauto].
      injection Hx as -> ->.
      apply (CrawlFacts.links_inv_step session_get parse_links cfg d st (net s)
               (Normal st') w' (Hcr i d st Hi) Hg Hb).
    + intros d' urls Hd. destruct (Hres d' urls Hd) as [Hex Hp].
      split; [|exact Hp]. apply (finished_insert _ _ _ _ _ Hi); [discriminate|exact Hex].
    + intros j d' Hj.
      apply (lookup_insert_task _ _ _ _ _ _ Hi) in Hj as [[_ Hx]|[_ Hj]]; [discriminate|eauto].
  - split; [erewrite task_domain_insert; [exact Hdom|exact Hi|reflexivity]|].
    split; [|split].
    + intros j d' st0 Hj.
      apply (lookup_insert_task _ _ _ _ _ _ Hi) in Hj as [[_ Hx]|[_ Hj]]; [discriminate|eauto].
    + intros d' urls Hd. destruct (Hres d' urls Hd) as [Hex Hp].
      split; [|exact Hp]. apply (finished_insert _ _ _ _ _ Hi); [discriminate|exact Hex].
    + intros j d' Hj.
      apply (lookup_insert_task _ _ _ _ _ _ Hi) in Hj as [[_ Hx]|[_ Hj]]; [discriminate|eauto].
  - split; [erewrite task_domain_insert; [exact Hdom|exact Hi|reflexivity]|].
    split; [|split].
    + intros j d' st0 Hj.
      apply (lookup_insert_task _ _ _ _ _ _ Hi) in Hj as [[_ Hx]|[_ Hj]]; [discriminate|eauto].
    + intros d' urls Hd. destruct (decide (d = d')) as [->|Hne].
      * rewrite lookup_insert_eq in Hd. inversion Hd; subst. split.
        -- exists i. apply list_lookup_insert_eq. eapply lookup_lt_Some. exact Hi.
        -- intros u Hu. apply elem_of_elements in Hu.
           destruct (Hcr i d' st Hi) as (H1 & H2 & _).
           apply H1, H2 in Hu as (_ & _ & _ & _ & Hp). exact Hp.
      * rewrite lookup_insert_ne in Hd by exact Hne.
        destruct (Hres d' urls Hd) as [Hex Hp]. split; [|exact Hp].
        apply (finished_insert _ _ _ _ _ Hi); [discriminate|exact Hex].
    + intros j d' Hj.
      apply (lookup_insert_task _ _ _ _ _ _ Hi) in Hj as [[_ Hx]|[_ Hj]].
      * inversion Hx; subst. rewrite lookup_insert_eq. eauto.
      * destruct (decide (d = d')) as [->|Hne].
        -- rewrite lookup_insert_eq. eauto.
        -- rewrite lookup_insert_ne by exact Hne. eauto.
Qed.

Lemma results_inv_rtc domains s s' :
  rtc ostep s s' -> results_inv domains s -> results_inv domains s'.
Proof. induction 1; eauto using results_inv_step. Qed.

(** X16: In every state of a run of [crawl_domains]: [results] has entries only
    for domains of the list whose task has finished, every finished task
    has its entry, every URL in an entry is a product URL, and there is one
    task per domain. *)
Theorem results_hold_products (domains : list string) (w : World)
    (s0 s : ostate World) :
  start domains w = Some s0 ->
  rtc ostep s0 s ->
  (forall d urls, results s !! d = Some urls ->
     d ∈ domains /\ (exists i, tasks s !! i = Some (Finished d)) /\
     forall u, u ∈ urls -> is_product_url u = true) /\
  (forall i d, tasks s !! i = Some (Finished d) -> is_Some (results s !! d)) /\
  task_domain <$> tasks s = domains.
Proof.
  intros Hstart Hrun.
  destruct (results_inv_rtc domains s0 s Hrun (results_inv_start domains w s0 Hstart))
    as (Hdom & _ & Hres & Hfin).
  split; [|split; [exact Hfin|exact Hdom]].
  intros d urls Hd. destruct (Hres d urls Hd) as [[i Hi] Hp].
  split; [|split; [eauto|exact Hp]].
  rewrite <- Hdom. apply list_elem_of_lookup. exists i.
  rewrite list_lookup_fmap, Hi. reflexivity.
Qed.

Lemma crawling_pos (ts : list task) :
  (0 < crawling ts)%nat -> exists i d st, ts !! i = Some (Crawling d st).
Proof.
  induction ts as [|t ts IH]; simpl; [lia|].
  intros H. destruct t as [d|d st|d|d e];
    try (destruct (IH H) as (i & d' & st' & Hi); exists (S i), d', st'; exact Hi).
  exists 0%nat, d, st. reflexivity.
Qed.

Lemma crawling_zero (ts : list task) i d st :
  crawling ts = 0%nat -> ts !! i = Some (Crawling d st) -> False.
Proof.
  revert i. induction ts as [|t ts IH]; intros i Hz Hi; [discriminate|].
  destruct i as [|i]; simpl in Hi.
  - inversion Hi; subst. discriminate.
  - apply (IH i); [|exact Hi]. destruct t; simpl in Hz; [exact Hz|lia|exact Hz|exact Hz].
Qed.

(** X17: With a positive limit a run never gets stuck: as long as a task is
    waiting or crawling, the event loop has a move. *)
Theorem crawl_domains_progress (domains : list string) (w : World)
    (s0 s : ostate World) :
  0 < max_concurrent_requests cfg ->
  start domains w = Some s0 ->
  rtc ostep s0 s ->
  (exists i t, tasks s !! i = Some t /\ pending t = true) ->
  exists s', ostep s s'.
Proof.
  intros Hpos Hstart Hrun (i & t & Hi & Hpend).
  destruct (sem_inv_rtc s0 s Hrun (sem_inv_start domains w s0 Hstart)) as [H0 Hsum].
  destruct (Nat.eq_dec (crawling (tasks s)) 0%nat) as [Hz|Hnz].
  - destruct t as [d|d st|d|d e]; try discriminate.
    + eexists. apply (step_acquire _ _ _ _ s i d Hi). lia.
    + destruct (crawling_zero _ _ _ _ Hz Hi).
  - destruct (crawling_pos (tasks s)) as (j & d & st & Hj); [lia|].
    destruct (loop_guard cfg st) eqn:Hg.
    + destruct (loop_body World session_get parse_links cfg d st (net s))
        as [[st'|e st'] w'] eqn:Hb.
      * eexists. apply (step_iterate _ _ _ _ s j d st st' w' Hj Hg Hb).
      * eexists. apply (step_raise _ _ _ _ s j d st e st' w' Hj Hg Hb).
    + eexists. apply (step_return _ _ _ _ s j d st Hj Hg).
Qed.

(** X18: With [max_concurrent_requests = 0] the semaphore never admits a task:
    the run stays in its first state, every task waiting and [results]
    empty. *)
Theorem crawl_domains_zero_slots (domains : list string) (w : World)
    (s0 s : ostate World) :
  max_concurrent_requests cfg = 0 ->
  start domains w = Some s0 ->
  rtc ostep s0 s ->
  s = s0 /\ results s = ∅ /\ tasks s = Waiting <$> domains.
Proof.
  intros Hz Hstart Hrun.
  assert (s0 = OState 0 (Waiting <$> domains) ∅ w) as Hs0.
  { unfold Orchestrator.start in Hstart. rewrite Hz in Hstart. simpl in Hstart.
    inversion Hstart. reflexivity. }
  assert (forall s', ~ ostep s0 s') as Hstuck.
  { intros s' Hstep. rewrite Hs0 in Hstep.
    inversion Hstep as [? i d Hi Hpos|? i d st st' w' Hi|? i d st e st' w' Hi|? i d st Hi];
      subst; simpl in *; try lia;
      apply lookup_waiting in Hi as (d' & Hd & _); discriminate. }
  destruct Hrun as [|s1 s2 s3 H12 _]; [rewrite Hs0; auto|].
  destruct (Hstuck _ H12).
Qed.


End Gather.

End OrchestratorFacts.

(* ===================================================================== *)
(** ** The properties on the example site *)
(* ===================================================================== *)

Module Scenarios.
Import Str Crawler Orchestrator Fixture CrawlFacts OrchestratorFacts.

Lemma shop_run_end cfg :
  cfg = shop_cfg \/ cfg = flat_cfg -> shop_run cfg 10 = Some (shop_end cfg).
Proof. intros [->| ->]; vm_compute; reflexivity. Qed.

Lemma shop_reaches cfg :
  cfg = shop_cfg \/ cfg = flat_cfg ->
  reaches nat (site_get shop_site) (table_links shop_pages) cfg "example.com" 0%nat
          (shop_end cfg).1 (shop_end cfg).2.
Proof.
  intros H. apply (crawl_domain_reaches _ _ _ _ 10%nat).
  rewrite <- surjective_pairing. apply shop_run_end. exact H.
Defined.

(** With [max_depth = 2] the crawl of example.com fetches the root and
    /about, and records three product URLs, one of them on another domain
    and one that matches in its query string only. *)
Example shop_crawl :
  elements (visited (state_of (shop_end shop_cfg).1))
    = ["https://example.com/about"; "https://example.com"] /\
  fetched (log (state_of (shop_end shop_cfg).1))
    = ["https://example.com"; "https://example.com/about"] /\
  "https://example.com/product/42" ∈ product_urls (state_of (shop_end shop_cfg).1) /\
  "https://other.org/item/7" ∈ product_urls (state_of (shop_end shop_cfg).1) /\
  "https://example.com/search?next=/p/" ∈ product_urls (state_of (shop_end shop_cfg).1) /\
  size (product_urls (state_of (shop_end shop_cfg).1)) = 3%nat.
Proof. vm_compute. repeat split; reflexivity. Qed.

(** A product link that does not contain the domain name is recorded. *)
Example out_of_domain_product_recorded :
  "https://other.org/item/7" ∈ product_urls (state_of (shop_end shop_cfg).1) /\
  str_in "example.com" "https://other.org/item/7" = false.
Proof. vm_compute. split; reflexivity. Qed.

(** C1 on the example site. *)
Lemma C1_visited_within_budget_witness :
  0 < max_pages shop_cfg /\
  Z.of_nat (size (visited (state_of (shop_end shop_cfg).1))) <= max_pages shop_cfg /\
  Z.of_nat (length (fetched (log (state_of (shop_end shop_cfg).1)))) <= max_pages shop_cfg.
Proof.
  assert (0 < max_pages shop_cfg) as Hp by reflexivity.
  destruct (C1_visited_within_budget (site_get shop_site) (table_links shop_pages)
              shop_cfg "example.com" 0%nat _ _ Hp
              (shop_reaches shop_cfg (or_introl eq_refl))) as (H1 & _ & _ & H4).
  split; [exact Hp|]. split; [exact H1|exact H4].
Defined.

(** C2 on the example site. *)
Lemma C2_no_url_fetched_twice_witness :
  NoDup (fetched (log (state_of (shop_end shop_cfg).1))).
Proof.
  exact (proj2 (C2_no_url_fetched_twice (site_get shop_site) (table_links shop_pages)
                  shop_cfg "example.com" 0%nat _ _
                  (shop_reaches shop_cfg (or_introl eq_refl)))).
Defined.

(** C3 as stated fails on the example site with [max_depth = 0]: the task
    [(https://example.com/about, 1)] is dequeued (and discarded), and its
    depth is above [max_depth]. *)
Lemma C3_dequeued_too_deep_counterexample :
  shop_run flat_cfg 10 = Some (shop_end flat_cfg) /\
  ~ (forall u d v,
       EvGet u d v ∈ log (state_of (shop_end flat_cfg).1) ->
       d <= max_depth flat_cfg /\ (u ∉ v)).
Proof.
  split; [apply shop_run_end; right; reflexivity|].
  intros H.
  destruct (H "https://example.com/about" 1 {[ "https://example.com" ]}) as [Hd _].
  - apply list_elem_of_lookup. exists 7%nat. vm_compute. reflexivity.
  - vm_compute in Hd. apply Hd. reflexivity.
Qed.

(** C3, amended, on the example site with [max_depth = 0]: the one task
    that was fetched, the root at depth 0. *)
Lemma C3_fetched_tasks_within_depth_witness :
  EvGet "https://example.com" 0 ∅ ∈ log (state_of (shop_end flat_cfg).1) /\
  0 <= max_depth flat_cfg /\
  ("https://example.com" ∉ (∅ : gset string)).
Proof.
  apply (proj1 (C3_fetched_tasks_within_depth (site_get shop_site) (table_links shop_pages)
                  flat_cfg "example.com" 0%nat _ _
                  (shop_reaches flat_cfg (or_intror eq_refl)))
           "https://example.com" 0 ∅ {[ "https://example.com" ]}).
  apply list_elem_of_lookup. exists 1%nat. vm_compute. reflexivity.
Defined.


(** C6 on the example site: the link to /about, which was enqueued. *)
Lemma C6_products_never_enqueued_witness :
  is_product_url "https://example.com/about" = false /\
  str_in "example.com" "https://example.com/about" = true.
Proof.
  apply (proj1 (C6_products_never_enqueued (site_get shop_site) (table_links shop_pages)
                  shop_cfg "example.com" 0%nat _ _
                  (shop_reaches shop_cfg (or_introl eq_refl)))
           "https://example.com/about" 1).
  apply list_elem_of_lookup. exists 6%nat. vm_compute. reflexivity.
Defined.

(** The only bodies the example site serves are those of its two pages. *)
Lemma shop_bodies w url w' html :
  fetch_url nat (site_get shop_site) w url = (w', Some html) ->
  html = "root" \/ html = "about".
Proof.
  unfold fetch_url, site_get, shop_site, assoc, Fixture.page.
  destruct (String.eqb url "https://example.com");
    [intros H; inversion H; auto|].
  destruct (String.eqb url "https://example.com/about");
    [intros H; inversion H; auto|].
  discriminate.
Defined.

(** C7 on the example site, with a link extractor that raises on every
    body but those of the two pages the site serves. *)
Lemma C7_crawl_domain_terminates_witness :
  0 <= max_depth shop_cfg /\ 0 < max_pages shop_cfg /\
  picky_links shop_pages "<html></html>" "https://example.com"
    = Raise (OtherError "no parser for this page") /\
  exists fuel st w,
    forall fuel', (fuel <= fuel')%nat ->
      crawl_domain nat (site_get shop_site) (picky_links shop_pages) shop_cfg
        fuel' "example.com" 0%nat = Some (Normal st, w).
Proof.
  assert (0 <= max_depth shop_cfg) as Hd by discriminate.
  assert (0 < max_pages shop_cfg) as Hp by reflexivity.
  split; [exact Hd|]. split; [exact Hp|]. split; [reflexivity|].
  apply (C7_crawl_domain_terminates (site_get shop_site) (picky_links shop_pages)
           shop_cfg "example.com" 0%nat Hd Hp).
  intros st w page depth rest w' html _ _ _ _ _ Hf.
  destruct (shop_bodies w page w' html Hf) as [-> | ->]; eexists; reflexivity.
Defined.


(** C9 on the example site. *)
Lemma C9_depth_zero_scenario_witness :
  exists st,
    (forall fuel, (3 <= fuel)%nat ->
       crawl_domain nat (site_get shop_site) (table_links shop_pages) flat_cfg fuel
         "example.com" 0%nat = Some (Normal st, 1%nat)) /\
    product_urls st = {[ "https://example.com/product/42" ]} /\
    visited st = {[ "https://" +:+ "example.com" ]} /\
    fetched (log st) = ["https://" +:+ "example.com"].
Proof.
  assert (0 < max_pages flat_cfg) as Hp by reflexivity.
  assert ("https://example.com/product/42" <> "https://" +:+ "example.com") as Hpr
    by discriminate.
  assert ("https://example.com/about" <> "https://" +:+ "example.com") as Har
    by discriminate.
  exact (C9_depth_zero_scenario (site_get shop_site) (table_links shop_pages)
           flat_cfg "example.com" 0%nat 1%nat "root"
           "https://example.com/product/42" "https://example.com/about"
           eq_refl Hp eq_refl (or_introl eq_refl) eq_refl Hpr eq_refl eq_refl Har).
Defined.

Lemma slots_full_reached :
  rtc (ostep nat (site_get shop_site) (table_links shop_pages) two_slots)
      slots_start slots_full.
Proof.
  eapply rtc_l.
  { apply (step_acquire nat (site_get shop_site) (table_links shop_pages) two_slots
             slots_start 0%nat "a.example"); reflexivity. }
  eapply rtc_l.
  { apply (step_acquire nat (site_get shop_site) (table_links shop_pages) two_slots
             _ 1%nat "b.example"); reflexivity. }
  apply rtc_refl.
Defined.

(** C10 with three domains and two slots: once two tasks crawl, the third
    is still waiting after any move. *)
Lemma C10_at_most_max_concurrent_witness :
  Z.of_nat (crawling (tasks slots_full)) <= max_concurrent_requests two_slots /\
  forall s',
    ostep nat (site_get shop_site) (table_links shop_pages) two_slots slots_full s' ->
    tasks s' !! 2%nat = Some (Waiting "c.example").
Proof.
  destruct (C10_at_most_max_concurrent (site_get shop_site) (table_links shop_pages)
              two_slots three_domains 0%nat slots_start slots_full
              eq_refl slots_full_reached) as [Hle Hsat].
  split; [exact Hle|].
  intros s' Hstep. apply (proj1 (Hsat eq_refl s' Hstep) 2%nat "c.example"). reflexivity.
Defined.

(** *** The further properties on the example site *)

Abbreviation shop_get := (site_get shop_site).
Abbreviation shop_links := (table_links shop_pages).

(** X4 on the example site. *)
Lemma crawl_domain_no_budget_witness :
  crawl_domain nat shop_get shop_links (Config 2 0 3) 5 "example.com" 0%nat
  = Some (Normal (state_of_start "example.com"), 0%nat).
Proof.
  apply (crawl_domain_no_budget shop_get shop_links (Config 2 0 3) "example.com"
           0%nat 4%nat).
  discriminate.
Defined.

(** X5 on the example site. *)
Lemma crawl_domain_negative_depth_witness :
  crawl_domain nat shop_get shop_links (Config (-1) 10 3) 5 "example.com" 0%nat
  = Some (Normal (after_get (state_of_start "example.com")
                            ("https://" +:+ "example.com") 0 []), 0%nat).
Proof.
  apply (crawl_domain_negative_depth shop_get shop_links (Config (-1) 10 3)
           "example.com" 0%nat 5%nat); [reflexivity|reflexivity|lia].
Defined.

(** X6 on the example site. *)
Lemma crawl_domain_single_page_witness :
  fetched (log (state_of
    (loop_body nat shop_get shop_links (Config 2 1 3) "example.com"
       (state_of_start "example.com") 0%nat).1))
  = ["https://" +:+ "example.com"].
Proof.
  apply (crawl_domain_single_page shop_get shop_links (Config 2 1 3) "example.com"
           0%nat 2%nat); [reflexivity|discriminate|lia].
Defined.

Lemma shop_mid_to_end :
  rtc (iter nat shop_get shop_links shop_cfg "example.com")
      (Normal (state_of (shop_mid shop_cfg).1), (shop_mid shop_cfg).2)
      ((shop_end shop_cfg).1, (shop_end shop_cfg).2).
Proof.
  apply (while_loop_rtc shop_get shop_links shop_cfg "example.com" 9%nat).
  vm_compute. reflexivity.
Defined.

Lemma shop_mid_product :
  "https://example.com/product/42"
  ∈ product_urls (state_of (Normal (state_of (shop_mid shop_cfg).1))).
Proof. vm_compute. reflexivity. Defined.

(** X9 on the example site: the product link recorded in the first
    iteration is still there when the crawl ends, two iterations later. *)
Lemma product_urls_mono_witness :
  "https://example.com/product/42" ∈ product_urls (state_of (shop_end shop_cfg).1).
Proof.
  apply (product_urls_mono shop_get shop_links shop_cfg "example.com"
           (Normal (state_of (shop_mid shop_cfg).1)) (shop_mid shop_cfg).2
           (shop_end shop_cfg).1 (shop_end shop_cfg).2 shop_mid_to_end
           "https://example.com/product/42" shop_mid_product).
Defined.

(** X2 on the example site. *)
Lemma is_product_url_embedded_witness :
  is_product_url ("https://shop.example" +:+ "/p/" +:+ "?page=2") = true.
Proof.
  apply (ClassifierFacts.is_product_url_embedded "/p/" "https://shop.example" "?page=2").
  reflexivity.
Defined.

(** X11 on the example site. *)
Lemma fetched_within_domain_witness :
  str_in "example.com" "https://example.com/about" = true /\
  ("https://example.com/about" = "https://" +:+ "example.com" \/
   is_product_url "https://example.com/about" = false).
Proof.
  apply (fetched_within_domain shop_get shop_links shop_cfg "example.com" 0%nat
           (shop_end shop_cfg).1 (shop_end shop_cfg).2 "https://example.com/about"
           (shop_reaches shop_cfg (or_introl eq_refl))).
  apply list_elem_of_lookup. exists 1%nat. vm_compute. reflexivity.
Defined.

(** X12 on the example site. *)
Lemma depth_bounds_witness :
  0 <= 1 <= max_depth shop_cfg.
Proof.
  apply (proj2 (depth_bounds shop_get shop_links shop_cfg "example.com" 0%nat
                  (shop_end shop_cfg).1 (shop_end shop_cfg).2
                  (shop_reaches shop_cfg (or_introl eq_refl)))
           "https://example.com/about" 1
           {[ "https://example.com" ]}
           ({[ "https://example.com/about" ]} ∪ {[ "https://example.com" ]})).
  apply list_elem_of_lookup. exists 8%nat. vm_compute. reflexivity.
Defined.

(** X13 on the example site. *)
Lemma depth_zero_fetches_root_only_witness :
  fetched (log (state_of (shop_end flat_cfg).1)) = [] \/
  fetched (log (state_of (shop_end flat_cfg).1)) = ["https://" +:+ "example.com"].
Proof.
  exact (depth_zero_fetches_root_only shop_get shop_links flat_cfg "example.com" 0%nat
           (shop_end flat_cfg).1 (shop_end flat_cfg).2 eq_refl
           (shop_reaches flat_cfg (or_intror eq_refl))).
Defined.

(** X10 on the example site. *)
Lemma products_never_visited_witness :
  visited (state_of (shop_end shop_cfg).1) ## product_urls (state_of (shop_end shop_cfg).1) /\
  (("https://" +:+ "example.com") ∉ product_urls (state_of (shop_end shop_cfg).1)).
Proof.
  exact (products_never_visited shop_get shop_links shop_cfg "example.com" 0%nat
           (shop_end shop_cfg).1 (shop_end shop_cfg).2
           (shop_reaches shop_cfg (or_introl eq_refl))).
Defined.

(** X14 on the example site. *)
Lemma breadth_first_order_witness :
  StronglySorted Z.le (fetch_depths (log (state_of (shop_end shop_cfg).1))).
Proof.
  exact (proj1 (proj2 (breadth_first_order shop_get shop_links shop_cfg "example.com"
                         0%nat (shop_end shop_cfg).1 (shop_end shop_cfg).2
                         (shop_reaches shop_cfg (or_introl eq_refl))))).
Defined.

Lemma shop_first_iteration :
  loop_body nat shop_get shop_links shop_cfg "example.com"
    (state_of_start "example.com") 0%nat
  = (Normal (state_of (shop_mid shop_cfg).1), (shop_mid shop_cfg).2).
Proof. vm_compute. reflexivity. Defined.

Lemma shop_second_iteration :
  loop_body nat shop_get shop_links shop_cfg "example.com"
    (state_of (shop_mid shop_cfg).1) (shop_mid shop_cfg).2
  = (Normal (state_of (shop_end shop_cfg).1), (shop_end shop_cfg).2).
Proof. vm_compute. reflexivity. Defined.

Lemma shop_guards :
  loop_guard shop_cfg (state_of_start "example.com") = true /\
  loop_guard shop_cfg (state_of (shop_mid shop_cfg).1) = true /\
  loop_guard shop_cfg (state_of (shop_end shop_cfg).1) = false.
Proof. vm_compute. repeat split; reflexivity. Defined.

(** The run of [crawl_domains(["example.com"])]: the task is admitted, makes
    its two iterations and returns. *)
Lemma shop_done_reached :
  rtc (ostep nat shop_get shop_links shop_cfg)
      (OState 3 [Waiting "example.com"] ∅ 0%nat) shop_done.
Proof.
  eapply rtc_l.
  { apply (step_acquire nat shop_get shop_links shop_cfg
             (OState 3 [Waiting "example.com"] ∅ 0%nat) 0%nat "example.com");
      reflexivity. }
  eapply rtc_l.
  { apply (step_iterate nat shop_get shop_links shop_cfg _ 0%nat "example.com"
             (state_of_start "example.com") (state_of (shop_mid shop_cfg).1)
             (shop_mid shop_cfg).2);
      [reflexivity|exact (proj1 shop_guards)|exact shop_first_iteration]. }
  eapply rtc_l.
  { apply (step_iterate nat shop_get shop_links shop_cfg _ 0%nat "example.com"
             (state_of (shop_mid shop_cfg).1) (state_of (shop_end shop_cfg).1)
             (shop_end shop_cfg).2);
      [reflexivity|exact (proj1 (proj2 shop_guards))|exact shop_second_iteration]. }
  eapply rtc_l.
  { apply (step_return nat shop_get shop_links shop_cfg _ 0%nat "example.com"
             (state_of (shop_end shop_cfg).1));
      [reflexivity|exact (proj2 (proj2 shop_guards))]. }
  apply rtc_refl.
Defined.

Lemma shop_urls_item : "https://other.org/item/7" ∈ shop_urls.
Proof. apply list_elem_of_lookup. exists 0%nat. vm_compute. reflexivity. Defined.

(** X16 on the example site, in the state where the task for example.com
    has finished and [results] holds its three product URLs. *)
Lemma results_hold_products_witness :
  ("example.com" ∈ ["example.com"] /\
   (exists i, tasks shop_done !! i = Some (Finished "example.com")) /\
   forall u, u ∈ shop_urls -> is_product_url u = true) /\
  is_product_url "https://other.org/item/7" = true.
Proof.
  pose proof (proj1 (results_hold_products shop_get shop_links shop_cfg
                       ["example.com"] 0%nat
                       (OState 3 [Waiting "example.com"] ∅ 0%nat) shop_done
                       eq_refl shop_done_reached)
                "example.com" shop_urls (lookup_insert_eq _ _ _)) as H.
  split; [exact H|]. apply (proj2 (proj2 H)). exact shop_urls_item.
Defined.

(** X17 on the example site. *)
Lemma crawl_domains_progress_witness :
  exists s', ostep nat shop_get shop_links two_slots slots_full s'.
Proof.
  apply (crawl_domains_progress shop_get shop_links two_slots three_domains 0%nat
           slots_start slots_full); [reflexivity|reflexivity|exact slots_full_reached|].
  exists 2%nat, (Waiting "c.example"). split; reflexivity.
Defined.

(** X18 on the example site. *)
Lemma crawl_domains_zero_slots_witness :
  OState 0 (Waiting <$> three_domains) ∅ 0%nat
    = OState 0 (Waiting <$> three_domains) ∅ 0%nat /\
  results (OState 0 (Waiting <$> three_domains) (∅ : gmap string (list string)) 0%nat) = ∅ /\
  tasks (OState 0 (Waiting <$> three_domains) (∅ : gmap string (list string)) 0%nat)
    = Waiting <$> three_domains.
Proof.
  apply (crawl_domains_zero_slots shop_get shop_links (Config 2 10 0) three_domains
           0%nat); [reflexivity|reflexivity|apply rtc_refl].
Defined.



(** X7 on the example site. *)
Lemma crawl_domain_parse_error_witness :
  crawl_domain nat shop_get broken_links shop_cfg 1 "example.com" 0%nat
  = Some (Raised (OtherError "Invalid IPv6 URL")
                 (after_visit (state_of_start "example.com")
                              ("https://" +:+ "example.com") 0 []), 1%nat).
Proof.
  apply (crawl_domain_parse_error shop_get broken_links shop_cfg "example.com"
           0%nat 1%nat "root" (OtherError "Invalid IPv6 URL") 0%nat);
    [discriminate|reflexivity|reflexivity|reflexivity].
Defined.

Lemma shop_run_normal :
  crawl_domain nat shop_get shop_links shop_cfg 10 "example.com" 0%nat
  = Some (Normal (state_of (shop_end shop_cfg).1), (shop_end shop_cfg).2).
Proof. vm_compute. reflexivity. Defined.

(** X8 on the example site. *)
Lemma crawl_domain_stops_when_witness :
  queue (state_of (shop_end shop_cfg).1) = [] \/
  Z.of_nat (size (visited (state_of (shop_end shop_cfg).1))) = max_pages shop_cfg.
Proof.
  apply (crawl_domain_stops_when shop_get shop_links shop_cfg "example.com"
           0%nat 10%nat _ (shop_end shop_cfg).2); [discriminate|exact shop_run_normal].
Defined.

Lemma shop_queue_empty : queue (state_of (shop_end shop_cfg).1) = [].
Proof. vm_compute. reflexivity. Defined.

(** X15 on the example site. *)
Lemma crawl_covers_queue_witness :
  "https://example.com/about" ∈ visited (state_of (shop_end shop_cfg).1).
Proof.
  apply (proj2 (crawl_covers_queue shop_get shop_links shop_cfg "example.com" 0%nat
                  (shop_end shop_cfg).1 (shop_end shop_cfg).2
                  (shop_reaches shop_cfg (or_introl eq_refl)) shop_queue_empty)
           "https://example.com/about" 1).
  - apply list_elem_of_lookup. exists 6%nat. vm_compute. reflexivity.
  - discriminate.
Defined.


End Scenarios.
